(** * Lifting matrices from SL_n(Z/N) to SL_n(Z)

    A shallow embedding of [sage/modular/local_comp/liftings.py] and the
    verification of its contracts.

    - Python integers (Sage's [ZZ]) are [Z]; the 2x2 family exchanges
      matrices as lists of four integers, exactly as the source does.
    - A call either returns a value, raises an exception, or loops for
      ever; the three outcomes are the constructors of [result].
    - The general [n x n] lift works on MathComp matrices over [int].

    The abstract convex sets of [sage/geometry/convex_set.py] follow in
    module [ConvexSet]. *)

From Stdlib Require Import ZArith Lia List String Ascii DecimalString.
From mathcomp Require Import ssreflect ssrfun ssrbool eqtype ssrnat seq choice.
From mathcomp Require Import fintype bigop ssralg ssrnum ssrint intdiv perm matrix.
Import ListNotations.

Set Implicit Arguments.
Unset Strict Implicit.
Unset Printing Implicit Defensive.

(** ** The Python run-time: exceptions and outcomes *)

Module Py.

Inductive exn : Type :=
| ValueError (msg : string)
| ZeroDivisionError (msg : string)
| AttributeError (msg : string)
| IndexError (msg : string)
| RuntimeError (msg : string).

Inductive result (A : Type) : Type :=
| Ok (x : A)
| Raise (e : exn)
| Diverges.

Arguments Ok {A} x.
Arguments Raise {A} e.
Arguments Diverges {A}.

Definition bind {A B : Type} (x : result A) (f : A -> result B) : result B :=
  match x with
  | Ok a => f a
  | Raise e => Raise e
  | Diverges => Diverges
  end.

Definition returns {A : Type} (x : result A) : bool :=
  match x with Ok _ => true | _ => false end.

(** [str(z)] for an integer. *)
Definition str (z : Z) : string := NilZero.string_of_int (Z.to_int z).

(** [x % m]: the sign of the result follows the divisor, as [Z.modulo]
    does; a zero divisor raises. *)
Definition pymod (x m : Z) : result Z :=
  if Z.eqb m 0 then Raise (ZeroDivisionError "Integer modulo by zero")
  else Ok (Z.modulo x m).

(** [l[i]] for a literal index [i >= 0]. *)
Definition getitem (l : list Z) (i : nat) : result Z :=
  match nth_error l i with
  | Some x => Ok x
  | None => Raise (IndexError "list index out of range")
  end.

(** [a, b, c, d = l]. *)
Definition unpack4 (l : list Z) : result (Z * Z * Z * Z) :=
  match l with
  | [a; b; c; d] => Ok (a, b, c, d)
  | _ :: _ :: _ :: _ :: _ :: _ => Raise (ValueError "too many values to unpack")
  | _ =>
      Raise (ValueError
        ("need more than " ++ str (Z.of_nat (List.length l)) ++ " values to unpack"))
  end.

End Py.

Import Py.

Declare Scope py_scope.
Delimit Scope py_scope with py.
Notation "x <- e ;; k" := (bind e (fun x => k))
  (at level 61, e at next level, right associativity) : py_scope.
Notation "' p <- e ;; k" := (bind e (fun x => let 'p := x in k))
  (at level 61, p pattern, e at next level, right associativity) : py_scope.

(** ** The arithmetic collaborators of the module

    [liftings.py] imports [crt] and [inverse_mod] from [sage.arith] and
    [lift_to_sl2z] from [sage.modular.modsym.p1list].  They are modelled
    here over unbounded integers, on the extended Euclidean algorithm; the
    models reproduce every example of the docstrings of [liftings.py]
    (theorem [docstring_examples]). *)

Module Arith.

Local Open Scope Z_scope.
Local Open Scope py_scope.

(** Modelled from the spec: the extended Euclidean algorithm behind the
    imported [crt], [inverse_mod] and [lift_to_sl2z], none of which is
    among the sources.  [xgcd_loop] runs [while b: ...] on non-negative
    [a], [b], carrying the cofactors [(p, q)] of [a] and [(r, s)] of [b];
    [fuel] bounds the number of iterations and [xgcd] supplies enough. *)
Fixpoint xgcd_loop (fuel : nat) (a b p q r s : Z) : Z * Z * Z :=
  match fuel with
  | O => (a, p, q)
  | S k =>
      if b =? 0 then (a, p, q)
      else
        let c := a mod b in
        let quot := a / b in
        xgcd_loop k b c r s (p - quot * r) (q - quot * s)
  end.

(** Modelled from the spec: the extended gcd the imported primitives call
    (it is not among the sources): [xgcd a b = (g, s, t)] with
    [g = gcd a b >= 0] and [s * a + t * b = g]. *)
Definition xgcd (a b : Z) : Z * Z * Z :=
  if a =? 0 then (Z.abs b, 0, Z.sgn b)
  else if b =? 0 then (Z.abs a, Z.sgn a, 0)
  else
    let '(g, p, q) :=
      xgcd_loop (S (Z.to_nat (Z.abs b))) (Z.abs a) (Z.abs b) 1 0 0 1 in
    (g, p * Z.sgn a, q * Z.sgn b).

(** Modelled from the spec: [crt(a, b, m, n)] of [sage.arith], which is
    not among the sources.  The Chinese Remainder combination: the residue
    modulo [lcm(m, n)] that is [a] modulo [m] and [b] modulo [n]; it
    raises when no such residue exists. *)
Definition crt (a b m n : Z) : result Z :=
  let '(g, alpha, _) := xgcd m n in
  if g =? 0 then Raise (ZeroDivisionError "Integer division by zero")
  else if negb ((b - a) mod g =? 0) then
    Raise (ValueError
      ("No solution to crt problem since gcd(" ++ str m ++ "," ++ str n
       ++ ") does not divide " ++ str a ++ "-" ++ str b))
  else
    let q := (b - a) / g in
    x <- pymod (a + q * alpha * m) (Z.lcm m n) ;;
    Ok x.

(** Modelled from the spec: [inverse_mod(a, m)] of [sage.arith], which is
    not among the sources.  The inverse of [a] modulo [m] in the range
    [0 .. |m|-1]; it raises when [a] is not invertible. *)
Definition inverse_mod (a m : Z) : result Z :=
  if m =? 0 then Raise (ZeroDivisionError "Inverse does not exist.")
  else
    let '(g, s, _) := xgcd a m in
    if g =? 1 then Ok (s mod Z.abs m)
    else Raise (ZeroDivisionError "Inverse does not exist.").

(** Modelled from the spec: the loop of [lift_to_sl2z] (not among the
    sources), [while True: g = gcd(m, d); if g == 1: break; m = m // g],
    which strips from [m] every factor it shares with [d].  It does not
    end when [m = 0] and [|d| <> 1]; [None] stands for the exhausted
    fuel. *)
Fixpoint prime_to_part (fuel : nat) (m d : Z) : option Z :=
  match fuel with
  | O => None
  | S k =>
      let g := Z.gcd m d in
      if g =? 1 then Some m else prime_to_part k (m / g) d
  end.

Definition prime_to (m d : Z) : result Z :=
  match prime_to_part (S (Z.to_nat (Z.abs m))) m d with
  | Some m' => Ok m'
  | None => Diverges
  end.

(** Modelled from the spec: [lift_to_sl2z(c, d, N)] of
    [sage.modular.modsym.p1list], which is not among the sources.  The
    elementary lifting primitive: a list [[a; b; c'; d']] of determinant 1
    whose bottom row is [(c, d)] itself when [c] and [d] are coprime, and
    is [(c, d)] modulo [N] otherwise: then [d] is moved by a multiple of
    [N] until it is coprime to [c]. *)
Definition lift_to_sl2z (c d N : Z) : result (list Z) :=
  if (c =? 0) && (d =? 0) then
    Raise (AttributeError ("Element (" ++ str c ++ ", " ++ str d ++ ") not in P1."))
  else
    let '(g, z1, z2) := xgcd c d in
    if g =? 1 then Ok [z2; - z1; c; d]
    else
      let c := if c =? 0 then c + N else c in
      let d := if d =? 0 then d + N else d in
      m <- prime_to c d ;;
      m <- prime_to m N ;;
      let d := d + N * m in
      let '(g, z1, z2) := xgcd c d in
      if negb (g =? 1) then
        Raise (ValueError "input must be normalized by normalize")
      else Ok [z2; - z1; c; d].

End Arith.

(** ** The 2x2 lifting family of [liftings.py] *)

Module Liftings.

Import Arith.
Local Open Scope Z_scope.
Local Open Scope py_scope.

Definition det_msg (det m : Z) : string :=
  "Determinant is " ++ str det ++ " mod " ++ str m ++ ", should be 1".

Definition lift_to_gamma1 (g : list Z) (m n : Z) : result (list Z) :=
  if m =? 1 then Ok [1; 0; 0; 1]
  else
    '(a, b, c, d) <- unpack4 g ;;
    det <- pymod (a * d - b * c) m ;;
    if negb (det =? 1) then Raise (ValueError (det_msg det m))
    else
      c2 <- crt c 0 m n ;;
      d2 <- crt d 1 m n ;;
      l <- lift_to_sl2z c2 d2 (m * n) ;;
      '(a3, b3, c3, d3) <- unpack4 l ;;
      r <- pymod (a3 * b - b3 * a) m ;;
      Ok [a3 + r * c3; b3 + r * d3; c3; d3].

Definition lift_matrix_to_sl2z (A : list Z) (N : Z) : result (list Z) :=
  lift_to_gamma1 A N 1.

Definition lift_gen_to_gamma1 (m n : Z) : result (list Z) :=
  lift_to_gamma1 [0; -1; 1; 0] m n.

Definition lift_uniformiser_odd (p u n : Z) : result (list Z) :=
  g <- lift_gen_to_gamma1 (p ^ u) n ;;
  g0 <- getitem g 0 ;;
  g1 <- getitem g 1 ;;
  g2 <- getitem g 2 ;;
  g3 <- getitem g 3 ;;
  Ok [p * g0; g1; p * g2; g3].

(** [(c - g[2]) / p**u] is Sage's exact quotient.  Whenever the base lift
    returns, [p**u] divides [c - g[2]] (lemma [lift_to_gamma1_sound]), so
    the quotient is the integer [Z.div] computes. *)
Definition lift_ramified (g : list Z) (p u n : Z) : result (list Z) :=
  l <- lift_to_gamma1 g (p ^ u) n ;;
  '(a, b, c, d) <- unpack4 l ;;
  g2 <- getitem g 2 ;;
  ia <- inverse_mod a p ;;
  r <- crt ((c - g2) / p ^ u * ia) 0 p n ;;
  let c := c - p ^ u * r * a in
  let d := d - p ^ u * r * b in
  Ok [a; b; c; d].


(** *** Vocabulary of the contracts of the 2x2 family *)

(** Exceptions are told apart by their class and message; the determinant
    check of the base lift is the only place that raises a [ValueError]
    whose message starts with a capital D. *)
Definition is_det_error (e : exn) : bool :=
  match e with
  | ValueError (String "D"%char _) => true
  | _ => false
  end.

(** What the base lift promises of any value it returns. *)
Definition gamma1_lift_of (a b c d m n : Z) (l : list Z) : Prop :=
  exists a' b' c' d',
    l = [a'; b'; c'; d'] /\ a' * d' - b' * c' = 1
    /\ ((m | a' - a) /\ (m | b' - b) /\ (m | c' - c) /\ (m | d' - d))
    /\ ((n | a' - 1) /\ (n | c') /\ (n | d' - 1)).

(** Every intermediate value of a run of [lift_ramified] on valid input. *)
Record ramified_run (a b c d p u n : Z) (out : list Z) : Prop := RamifiedRun {
  rr_a1 : Z; rr_b1 : Z; rr_c1 : Z; rr_d1 : Z; rr_ia : Z; rr_r : Z;
  rr_base : lift_to_gamma1 [a; b; c; d] (p ^ u) n = Ok [rr_a1; rr_b1; rr_c1; rr_d1];
  rr_det : rr_a1 * rr_d1 - rr_b1 * rr_c1 = 1;
  rr_mod_a : (p ^ u | rr_a1 - a);
  rr_mod_b : (p ^ u | rr_b1 - b);
  rr_mod_c : (p ^ u | rr_c1 - c);
  rr_mod_d : (p ^ u | rr_d1 - d);
  rr_n_a : (n | rr_a1 - 1);
  rr_n_c : (n | rr_c1);
  rr_n_d : (n | rr_d1 - 1);
  rr_unit : (p | rr_a1 * rr_d1 - 1);
  rr_inv : inverse_mod rr_a1 p = Ok rr_ia;
  rr_inv_ok : (p | rr_a1 * rr_ia - 1);
  rr_crt : crt ((rr_c1 - c) / p ^ u * rr_ia) 0 p n = Ok rr_r;
  rr_crt_p : (p | rr_r - (rr_c1 - c) / p ^ u * rr_ia);
  rr_crt_n : (n | rr_r);
  rr_out : out = [rr_a1; rr_b1; rr_c1 - p ^ u * rr_r * rr_a1;
                  rr_d1 - p ^ u * rr_r * rr_b1]
}.

End Liftings.

(** ** The general lift [lift_for_SL] *)

Module GeneralLift.

Import GRing.Theory.
Local Open Scope ring_scope.
Local Open Scope py_scope.

(** Index 1 of a matrix with at least two rows. *)
Definition ord_1 {n : nat} : 'I_n.+2 := lift ord0 ord0.

(** [A[i, j] = v]. *)
Definition mx_set {n : nat} (A : 'M[int]_n) (i j : 'I_n) (v : int) : 'M[int]_n :=
  \matrix_(k, l) if (k == i) && (l == j) then v else A k l.

(** [diagonal_matrix([-1] + [1] * (m - 1))]. *)
Definition sign_diag (n : nat) : 'M[int]_n.+1 :=
  diag_mx (\row_i if i == ord0 then -1 else 1).

(** [W = identity_matrix(m); W[0, 0] = b; W[1, 0] = b - 1; W[0, 1] = 1]. *)
Definition W_mx (n : nat) (b : int) : 'M[int]_n.+2 :=
  mx_set (mx_set (mx_set 1%:M ord0 ord0 b) ord_1 ord0 (b - 1)) ord0 ord_1 1.

(** [X = identity_matrix(m); X[0, 1] = c], called with [c = -a[1]]. *)
Definition X_mx (n : nat) (c : int) : 'M[int]_n.+2 := mx_set 1%:M ord0 ord_1 c.

(** [Ap = copy(D); Ap[0, 0] = 1; Ap[1, 0] = 1 - a[0]; Ap[1, 1] *= a[0]],
    with [a] the diagonal of [D].  The source computes [Ap] and does not
    use it. *)
Definition Ap_mx (n : nat) (D : 'M[int]_n.+2) : 'M[int]_n.+2 :=
  let Ap := mx_set D ord0 ord0 1 in
  let Ap := mx_set Ap ord_1 ord0 (1 - D ord0 ord0) in
  mx_set Ap ord_1 ord_1 (Ap ord_1 ord_1 * D ord0 ord0).

(** [Cp = diagonal_matrix(a[1:]); Cp[0, 0] *= a[0]]. *)
Definition Cp_mx (n : nat) (a : 'I_n.+2 -> int) : 'M[int]_n.+1 :=
  let Cp := diag_mx (\row_i a (lift ord0 i)) in
  mx_set Cp ord0 ord0 (Cp ord0 ord0 * a ord0).

(** [Cpp = block_diagonal_matrix(identity_matrix(1), C);
     Cpp[1, 0] = 1 - a[0]]. *)
Definition Cpp_mx (n : nat) (a0 : int) (C : 'M[int]_n.+1) : 'M[int]_n.+2 :=
  mx_set (block_mx (1%:M : 'M_1) 0 0 C : 'M[int]_n.+2) ord_1 ord0 (1 - a0).

(** The type of [A.smith_form()], which returns [(D, U, V)].  Smith normal
    form is a collaborator of the module; [lift_for_SL] takes it as a
    parameter, and its contract is [smith_spec] below. *)
Definition smith_type : Type :=
  forall n : nat, 'M[int]_n -> 'M[int]_n * 'M[int]_n * 'M[int]_n.

Section Body.

Variable smith_form : smith_type.

(** The body of [lift_for_SL] for [m >= 2] rows, with the recursive call
    as [rec].  [~M] is [invmx M]: the four matrices it is applied to have
    determinant 1 (lemmas [det_normalise_l], [det_normalise_r], [det_W]
    and [det_X]), where [invmx] is the inverse and has integer entries, so
    [change_ring(ZZ)] changes nothing. *)
Definition lift_body (n : nat)
    (rec : 'M[int]_n.+1 -> int -> result 'M[int]_n.+1)
    (A : 'M[int]_n.+2) (N : int) : result 'M[int]_n.+2 :=
  let '(_, U, V) := smith_form A in
  let diag := sign_diag n.+1 in
  let U := if \det U == -1 then diag *m U else U in
  let V := if \det V == -1 then V *m diag else V in
  let D := U *m A *m V in
  let a := fun i => D i i in
  let b := \prod_(i < n.+2 | i != ord0) a i in
  let W := W_mx n b in
  let X := X_mx n (- a ord_1) in
  let Ap := Ap_mx D in
  let Cp := Cp_mx a in
  C <- rec Cp N ;;
  let Cpp := Cpp_mx (a ord0) C in
  Ok (invmx U *m invmx W *m Cpp *m invmx X *m invmx V).

Fixpoint lift_for_SL (n : nat) : 'M[int]_n.+1 -> int -> result 'M[int]_n.+1 :=
  match n with
  | 0 => fun _ _ => Ok 1%:M
  | n'.+1 => lift_body (@lift_for_SL n')
  end.

(** The same function run with room for [frames] nested calls on the
    Python stack. *)
Fixpoint lift_for_SL_limited (frames : nat) (n : nat) {struct frames} :
    'M[int]_n.+1 -> int -> result 'M[int]_n.+1 :=
  match frames with
  | 0 => fun _ _ => Raise (RuntimeError "maximum recursion depth exceeded")
  | k.+1 =>
      match n with
      | 0 => fun _ _ => Ok 1%:M
      | n'.+1 => lift_body (@lift_for_SL_limited k n')
      end
  end.

(** [lift_for_SL] on a square matrix of any size.  A matrix with no rows
    passes the test [m == 1], and the assignment [W[0, 0] = b] to the
    0-by-0 identity fails. *)
Definition lift_for_SL_any (n : nat) : 'M[int]_n -> int -> result 'M[int]_n :=
  match n with
  | 0 => fun _ _ => Raise (IndexError "matrix index out of range")
  | n'.+1 => @lift_for_SL n'
  end.

End Body.

(** *** Vocabulary of the contract of the general lift *)

(** Entrywise congruence of integer matrices modulo [N]. *)
Definition mx_congr (N : int) n (A B : 'M[int]_n) : Prop :=
  forall i j, (N %| A i j - B i j)%Z.

(** The contract of [A.smith_form()]: it returns [(D, U, V)] with
    [D = U * A * V] diagonal and [U], [V] invertible over the integers. *)
Definition smith_spec (sf : smith_type) : Prop :=
  forall n (A : 'M[int]_n),
    let '(D, U, V) := sf n A in
    [/\ U \in unitmx, V \in unitmx, D = U *m A *m V & is_diag_mx D].

(** [r] is a successful lift of [A] modulo [N]. *)
Definition lifts (N : int) n (A : 'M[int]_n) (r : result 'M[int]_n) : Prop :=
  exists L, [/\ r = Ok L, \det L = 1 & mx_congr N L A].

(** [A] can be brought, by invertible row and column operations, to a form
    whose first row and first column vanish outside the corner. *)
Definition cleared (n : nat) (A : 'M[int]_(1 + n)) : Prop :=
  exists U V, [/\ U \in unitmx, V \in unitmx
    & exists (d : int) (A' : 'M[int]_n), U *m A *m V = block_mx d%:M 0 0 A'].

(** [UV] is a pair of invertible matrices that brings [A] to diagonal
    form. *)
Definition diagonalises n (A : 'M[int]_n) (UV : 'M[int]_n * 'M[int]_n) : bool :=
  [&& UV.1 \in unitmx, UV.2 \in unitmx & is_diag_mx (UV.1 *m A *m UV.2)].

(** The matrix [diag(2, 6)], of determinant 12. *)
Definition witness_matrix : 'M[int]_2 :=
  diag_mx (\row_i (if i == ord0 then 2 else 6)).

End GeneralLift.

(** ** The abstract convex sets of [sage/geometry/convex_set.py]

    The module defines five abstract classes whose methods answer
    questions about a convex set from its dimension and the dimension of
    its ambient space, call one another through [self], and raise
    [NotImplementedError] where a class does not know the answer.

    An object here is an instance of one of the five classes, or of a
    subclass that supplies only what the classes ask of it: [dim] or
    [an_affine_basis], and [ambient_vector_space].  A call [self.f()] is
    resolved by the class of [self], as Python does along the method
    resolution order; the function [f] below is that resolution, and
    [C_f] is the body of [f] in the class [C] that defines it. *)

Module ConvexSet.

Local Open Scope Z_scope.

Inductive error : Type :=
| NotImplementedError
| AssertionError
| PyError (e : exn).

Inductive outcome (A : Type) : Type :=
| Return (x : A)
| Throw (e : error).

Arguments Return {A} x.
Arguments Throw {A} e.

Definition andThen {A B : Type} (x : outcome A) (f : A -> outcome B) : outcome B :=
  match x with
  | Return a => f a
  | Throw e => Throw e
  end.

Declare Scope cs_scope.
Delimit Scope cs_scope with cs.
Notation "x <~ e ;; k" := (andThen e (fun x => k))
  (at level 61, e at next level, right associativity) : cs_scope.
Notation "e ;;; k" := (andThen e (fun _ => k))
  (at level 61, right associativity) : cs_scope.
Local Open Scope cs_scope.

Inductive class : Type :=
| ConvexSet_base
| ConvexSet_closed
| ConvexSet_compact
| ConvexSet_relatively_open
| ConvexSet_open.

(** An object: its class and the methods its own subclass supplies.
    [own_dim] is the value of a [dim] method of the subclass, if it has
    one; [affine_basis] is the number of points [an_affine_basis()]
    returns, if the subclass implements it; [ambient_space] is the
    dimension of [ambient_vector_space()], if the subclass implements
    it. *)
Record object : Type := Object {
  class_of : class;
  own_dim : option Z;
  affine_basis : option nat;
  ambient_space : option Z
}.

Definition class_eqb (k1 k2 : class) : bool :=
  match k1, k2 with
  | ConvexSet_base, ConvexSet_base
  | ConvexSet_closed, ConvexSet_closed
  | ConvexSet_compact, ConvexSet_compact
  | ConvexSet_relatively_open, ConvexSet_relatively_open
  | ConvexSet_open, ConvexSet_open => true
  | _, _ => false
  end.

Definition option_eqb {A : Type} (eqb : A -> A -> bool) (x y : option A) : bool :=
  match x, y with
  | Some a, Some b => eqb a b
  | None, None => true
  | _, _ => false
  end.

(** [x == y] for two objects of this model. *)
Definition object_eqb (x y : object) : bool :=
  class_eqb (class_of x) (class_of y)
  && option_eqb Z.eqb (own_dim x) (own_dim y)
  && option_eqb Nat.eqb (affine_basis x) (affine_basis y)
  && option_eqb Z.eqb (ambient_space x) (ambient_space y).

Section Methods.

Variable self : object.

(** [ConvexSet_base.dim], unless the subclass has its own:
    [if self.an_affine_basis != NotImplemented:
         return len(self.an_affine_basis()) - 1
     raise NotImplementedError]. *)
Definition dim : outcome Z :=
  match own_dim self with
  | Some d => Return d
  | None =>
      match affine_basis self with
      | Some k => Return (Z.of_nat k - 1)
      | None => Throw NotImplementedError
      end
  end.

(** [ambient_dim] is [self.ambient().dimension()], and [ambient] is
    [self.ambient_vector_space()], an abstract method. *)
Definition ambient_dim : outcome Z :=
  match ambient_space self with
  | Some n => Return n
  | None => Throw NotImplementedError
  end.

Definition dimension : outcome Z := dim.

Definition ambient_dimension : outcome Z := ambient_dim.

(** [return self.dim() < 0]. *)
Definition is_empty : outcome bool :=
  d <~ dim ;; Return (d <? 0).

(** [return self.ambient_dim() - self.dim()]. *)
Definition codimension : outcome Z :=
  n <~ ambient_dim ;; d <~ dim ;; Return (n - d).

Definition codim : outcome Z := codimension.

(** [return self.dim() == self.ambient_dim()]. *)
Definition is_full_dimensional : outcome bool :=
  d <~ dim ;; n <~ ambient_dim ;; Return (d =? n).

(** [is_universe]: defined in [ConvexSet_base] and in
    [ConvexSet_compact]. *)
Definition Base_is_universe : outcome bool :=
  f <~ is_full_dimensional ;;
  if negb f then Return false else Throw NotImplementedError.

Definition Compact_is_universe : outcome bool :=
  n <~ ambient_dim ;;
  if n =? 0 then e <~ is_empty ;; Return (negb e) else Return false.

Definition is_universe : outcome bool :=
  match class_of self with
  | ConvexSet_compact => Compact_is_universe
  | _ => Base_is_universe
  end.

(** [x or y] on two calls: the second is made only when the first
    returns [False]. *)
Definition or_else (x y : outcome bool) : outcome bool :=
  b <~ x ;; if b then Return true else y.

(** [is_open]: defined in [ConvexSet_base], [ConvexSet_closed] (inherited
    by [ConvexSet_compact]), [ConvexSet_relatively_open] and
    [ConvexSet_open]. *)
Definition Base_is_open : outcome bool :=
  b <~ or_else is_empty is_universe ;;
  if b then Return true else Throw NotImplementedError.

Definition Closed_is_open : outcome bool := or_else is_empty is_universe.

Definition RelativelyOpen_is_open : outcome bool :=
  or_else is_empty is_full_dimensional.

Definition Open_is_open : outcome bool := Return true.

Definition is_open : outcome bool :=
  match class_of self with
  | ConvexSet_base => Base_is_open
  | ConvexSet_closed | ConvexSet_compact => Closed_is_open
  | ConvexSet_relatively_open => RelativelyOpen_is_open
  | ConvexSet_open => Open_is_open
  end.

(** [is_relatively_open]: defined in [ConvexSet_base] and in
    [ConvexSet_relatively_open] (inherited by [ConvexSet_open]);
    [ConvexSet_compact] binds the name to [ConvexSet_closed.is_open]. *)
Definition Base_is_relatively_open : outcome bool :=
  o <~ is_open ;;
  if o then Return true
  else
    d <~ dim ;;
    if d =? 0 then Return true else Throw NotImplementedError.

Definition RelativelyOpen_is_relatively_open : outcome bool := Return true.

Definition is_relatively_open : outcome bool :=
  match class_of self with
  | ConvexSet_base | ConvexSet_closed => Base_is_relatively_open
  | ConvexSet_compact => Closed_is_open
  | ConvexSet_relatively_open | ConvexSet_open => RelativelyOpen_is_relatively_open
  end.

(** [is_closed]: defined in [ConvexSet_base], [ConvexSet_closed]
    (inherited by [ConvexSet_compact]) and [ConvexSet_open]. *)
Definition Base_is_closed : outcome bool :=
  b <~ or_else is_empty
         (or_else (d <~ dim ;; Return (d =? 0)) is_universe) ;;
  if b then Return true else Throw NotImplementedError.

Definition Closed_is_closed : outcome bool := Return true.

Definition Open_is_closed : outcome bool := or_else is_empty is_universe.

Definition is_closed : outcome bool :=
  match class_of self with
  | ConvexSet_base | ConvexSet_relatively_open => Base_is_closed
  | ConvexSet_closed | ConvexSet_compact => Closed_is_closed
  | ConvexSet_open => Open_is_closed
  end.

(** [is_compact]: defined in [ConvexSet_base] and in
    [ConvexSet_compact]. *)
Definition Base_is_compact : outcome bool :=
  c <~ is_closed ;;
  if negb c then Return false
  else
    d <~ dim ;;
    if d <? 1 then Return true else Throw NotImplementedError.

Definition Compact_is_compact : outcome bool := Return true.

Definition is_compact : outcome bool :=
  match class_of self with
  | ConvexSet_compact => Compact_is_compact
  | _ => Base_is_compact
  end.

(** [closure], [interior] and [relative_interior] are defined in
    [ConvexSet_base] only: [if self.is_closed(): return self] and
    [raise NotImplementedError] otherwise, and likewise. *)
Definition closure : outcome object :=
  c <~ is_closed ;; if c then Return self else Throw NotImplementedError.

Definition interior : outcome object :=
  o <~ is_open ;; if o then Return self else Throw NotImplementedError.

Definition relative_interior : outcome object :=
  o <~ is_relatively_open ;; if o then Return self else Throw NotImplementedError.

(** [try: v = e / except NotImplementedError: v = None]. *)
Definition or_None (e : outcome object) : outcome (option object) :=
  match e with
  | Return x => Return (Some x)
  | Throw NotImplementedError => Return None
  | Throw err => Throw err
  end.

(** [tester.assertTrue(b)]. *)
Definition assertTrue (b : bool) : outcome unit :=
  if b then Return tt else Throw AssertionError.

(** [if c: k]. *)
Definition when (c : bool) (k : outcome unit) : outcome unit :=
  if c then k else Return tt.

(** [_test_convex_set].  [TestSuite_run] stands for
    [TestSuite(relint_self).run(...)], which belongs to Sage's test
    framework. *)
Definition _test_convex_set (TestSuite_run : object -> outcome unit) : outcome unit :=
  dim_ <~ dim ;;
  codim_ <~ codim ;;
  n <~ ambient_dim ;; assertTrue (dim_ <=? n) ;;;
  when (0 <=? dim_) (n <~ ambient_dim ;; assertTrue (dim_ + codim_ =? n)) ;;;
  e <~ is_empty ;; when e (assertTrue (dim_ =? -1)) ;;;
  u <~ is_universe ;; when u (f <~ is_full_dimensional ;; assertTrue f) ;;;
  cl_self <~ closure ;;
  int_self <~ or_None interior ;;
  relint_self <~ or_None relative_interior ;;
  f <~ is_full_dimensional ;;
  when f (assertTrue (option_eqb object_eqb int_self relint_self)) ;;;
  r <~ is_relatively_open ;;
  when r (assertTrue (option_eqb object_eqb (Some self) relint_self)) ;;;
  o <~ is_open ;;
  when o (assertTrue (option_eqb object_eqb (Some self) int_self)) ;;;
  c <~ is_closed ;;
  when c (assertTrue (object_eqb self cl_self)) ;;;
  k <~ is_compact ;;
  when k (c <~ is_closed ;; assertTrue c) ;;;
  match relint_self with
  | Some x => if negb (object_eqb x self) then TestSuite_run x else Return tt
  | None => Return tt
  end.

End Methods.

End ConvexSet.

(** ** Facts about the arithmetic collaborators *)

Module ArithFacts.

Import Arith.
Local Open Scope Z_scope.

Lemma xgcd_loop_spec (a0 b0 : Z) (fuel : nat) :
  forall a b p q r s,
    0 <= a -> 0 <= b -> b < Z.of_nat fuel ->
    p * a0 + q * b0 = a -> r * a0 + s * b0 = b ->
    let '(g, p', q') := xgcd_loop fuel a b p q r s in
    g = Z.gcd a b /\ p' * a0 + q' * b0 = g.
Proof.
  induction fuel as [|k IH]; intros a b p q r s Ha Hb Hfuel Hp Hr.
  - simpl in Hfuel. lia.
  - cbn [xgcd_loop]. destruct (Z.eqb_spec b 0) as [Hb0|Hb0].
    + rewrite Hb0. rewrite Z.gcd_0_r. rewrite Z.abs_eq; auto.
    + assert (Hmod : 0 <= a mod b < b) by (apply Z.mod_pos_bound; lia).
      specialize (IH b (a mod b) r s (p - a / b * r) (q - a / b * s)).
      assert (Hq : a = b * (a / b) + a mod b) by (apply Z_div_mod_eq_full).
      destruct (xgcd_loop k b (a mod b) r s (p - a / b * r) (q - a / b * s))
        as [[g p'] q'].
      destruct IH as [Hg Hbez]; try lia.
      split; auto. rewrite Hg (Z.gcd_comm b) Z.gcd_mod; try lia. apply Z.gcd_comm.
Qed.

Lemma xgcd_spec (a b : Z) :
  let '(g, s, t) := xgcd a b in g = Z.gcd a b /\ s * a + t * b = g.
Proof.
  unfold xgcd.
  destruct (Z.eqb_spec a 0) as [Ha|Ha].
  - subst a. rewrite Z.gcd_0_l. split; auto.
    rewrite Z.mul_comm. rewrite Z.sgn_abs. lia.
  - destruct (Z.eqb_spec b 0) as [Hb|Hb].
    + subst b. rewrite Z.gcd_0_r. split; auto.
      rewrite (Z.mul_comm (Z.sgn a)). rewrite Z.sgn_abs. lia.
    + pose proof (@xgcd_loop_spec (Z.abs a) (Z.abs b) (S (Z.to_nat (Z.abs b)))
                    (Z.abs a) (Z.abs b) 1 0 0 1) as H.
      destruct (xgcd_loop (S (Z.to_nat (Z.abs b))) (Z.abs a) (Z.abs b) 1 0 0 1)
        as [[g p] q].
      destruct H as [Hg Hbez]; try lia.
      split.
      * rewrite Hg. rewrite Z.gcd_abs_l. rewrite Z.gcd_abs_r. reflexivity.
      * rewrite <- Hbez.
        rewrite <- (Z.sgn_abs a) at 1. rewrite <- (Z.sgn_abs b) at 1. ring.
Qed.


Lemma gcd_one_of_divide (x d g : Z) : Z.gcd x d = 1 -> (g | d) -> Z.gcd x g = 1.
Proof.
  intros Hxd Hg.
  apply Z.divide_1_r_nonneg; [apply Z.gcd_nonneg|].
  rewrite <- Hxd. apply Z.gcd_greatest.
  - apply Z.gcd_divide_l.
  - apply Z.divide_trans with g; auto. apply Z.gcd_divide_r.
Qed.

Lemma gcd_one_of_divide_l (x d g : Z) : Z.gcd x d = 1 -> (g | x) -> Z.gcd g d = 1.
Proof.
  intros Hxd Hg. rewrite Z.gcd_comm.
  apply gcd_one_of_divide with x; auto. now rewrite Z.gcd_comm.
Qed.

Lemma crt_sound (a b m n x : Z) :
  crt a b m n = Ok x -> (m | x - a) /\ (n | x - b).
Proof.
  unfold crt. pose proof (xgcd_spec m n) as H.
  destruct (xgcd m n) as [[g alpha] beta]. destruct H as [Hg Hbez].
  destruct (Z.eqb_spec g 0) as [|Hg0]; [discriminate|].
  destruct (Z.eqb_spec ((b - a) mod g) 0) as [Hdiv|]; [|discriminate].
  cbn [negb]. unfold pymod.
  destruct (Z.eqb_spec (Z.lcm m n) 0) as [|Hl]; [discriminate|].
  cbn [bind]. intros [= <-].
  assert (Hq : b - a = g * ((b - a) / g)) by (apply Z_div_exact_full_2; auto).
  set (q := (b - a) / g) in *.
  set (X := a + q * alpha * m).
  pose proof (Z.mod_eq X (Z.lcm m n) Hl) as E. rewrite E.
  set (dd := X / Z.lcm m n).
  split.
  - destruct (Z.divide_lcm_l m n) as [k Hk]. rewrite Hk.
    exists (q * alpha - k * dd). unfold X. ring.
  - destruct (Z.divide_lcm_r m n) as [k Hk]. rewrite Hk.
    exists (- q * beta - k * dd). unfold X.
    replace (a + q * alpha * m - k * n * dd - b)
      with (q * alpha * m - (b - a) - k * n * dd) by ring.
    rewrite Hq. rewrite <- Hbez. ring.
Qed.

Lemma crt_returns (a b m n : Z) :
  0 < m -> 0 < n -> Z.gcd m n = 1 ->
  exists x, crt a b m n = Ok x /\ 0 <= x < m * n.
Proof.
  intros Hm Hn Hgcd. unfold crt. pose proof (xgcd_spec m n) as H.
  destruct (xgcd m n) as [[g alpha] beta]. destruct H as [Hg _].
  rewrite Hgcd in Hg. subst g. cbn [Z.eqb negb]. rewrite Zmod_1_r. cbn [Z.eqb negb].
  assert (Hl : Z.lcm m n = m * n).
  { unfold Z.lcm. rewrite Hgcd. rewrite Z.div_1_r. apply Z.abs_eq. nia. }
  unfold pymod. rewrite Hl.
  destruct (Z.eqb_spec (m * n) 0) as [|_]; [nia|]. cbn [bind].
  eexists; split; [reflexivity|]. apply Z.mod_pos_bound. nia.
Qed.

Lemma inverse_mod_sound (a m ia : Z) :
  inverse_mod a m = Ok ia -> (m | a * ia - 1).
Proof.
  unfold inverse_mod. destruct (Z.eqb_spec m 0) as [|Hm]; [discriminate|].
  pose proof (xgcd_spec a m) as H.
  destruct (xgcd a m) as [[g s] t]. destruct H as [_ Hbez].
  destruct (Z.eqb_spec g 1) as [Hg|]; [|discriminate].
  intros [= <-]. subst g.
  assert (Habs : Z.abs m <> 0) by lia.
  rewrite (Z.mod_eq s (Z.abs m) Habs). set (dd := s / Z.abs m).
  rewrite <- (Z.sgn_abs m).
  exists (- t - a * Z.sgn m * dd).
  replace (a * (s - m * Z.sgn m * dd) - 1)
    with (s * a - 1 - a * m * Z.sgn m * dd) by ring.
  replace (s * a - 1) with (- t * m) by lia. ring.
Qed.

Lemma inverse_mod_returns (a m : Z) :
  m <> 0 -> Z.gcd a m = 1 -> exists ia, inverse_mod a m = Ok ia.
Proof.
  intros Hm Hgcd. unfold inverse_mod.
  destruct (Z.eqb_spec m 0) as [|_]; [contradiction|].
  pose proof (xgcd_spec a m) as H.
  destruct (xgcd a m) as [[g s] t]. destruct H as [Hg _].
  rewrite Hgcd in Hg. subst g. cbn [Z.eqb]. eexists; reflexivity.
Qed.

Lemma prime_to_part_spec (d : Z) (fuel : nat) :
  forall m, 0 < m -> m < Z.of_nat fuel ->
  exists m', prime_to_part fuel m d = Some m' /\ 0 < m' /\ (m' | m)
             /\ Z.gcd m' d = 1
             /\ (forall x, (x | m) -> Z.gcd x d = 1 -> (x | m')).
Proof.
  induction fuel as [|k IH]; intros m Hm Hfuel; [simpl in Hfuel; lia|].
  cbn [prime_to_part]. destruct (Z.eqb_spec (Z.gcd m d) 1) as [Hg|Hg].
  - exists m. repeat split; auto. apply Z.divide_refl.
  - set (g := Z.gcd m d) in *.
    assert (Hgm : (g | m)) by apply Z.gcd_divide_l.
    assert (Hgd : (g | d)) by apply Z.gcd_divide_r.
    assert (Hg0 : 0 <= g) by apply Z.gcd_nonneg.
    assert (Hgn : g <> 0).
    { intros E. unfold g in E. apply Z.gcd_eq_0_l in E. lia. }
    assert (Hex : m = g * (m / g)) 
      by (apply Z_div_exact_full_2; [lia|now apply Z.mod0_divide]).
    assert (Hq : 0 < m / g < m) by nia.
    destruct (IH (m / g)) as (m' & E & Hpos & Hdiv & Hcop & Hmax); try lia.
    exists m'. repeat split; auto.
    + apply Z.divide_trans with (m / g); auto. exists g. lia.
    + intros x Hx Hxd. apply Hmax; auto.
      apply Z.gauss with g.
      * now rewrite <- Hex.
      * now apply gcd_one_of_divide with d.
Qed.

Lemma prime_to_spec (m d : Z) :
  0 < m ->
  exists m', prime_to m d = Ok m' /\ 0 < m' /\ (m' | m) /\ Z.gcd m' d = 1
             /\ (forall x, (x | m) -> Z.gcd x d = 1 -> (x | m')).
Proof.
  intros Hm. unfold prime_to.
  destruct (@prime_to_part_spec d (S (Z.to_nat (Z.abs m))) m Hm)
    as (m' & E & H); [lia|].
  rewrite E. now exists m'.
Qed.

Lemma try_harder_coprime (c d N m1 m2 : Z) :
  Z.gcd (Z.gcd c d) N = 1 ->
  Z.gcd m1 d = 1 -> (m2 | m1) ->
  (forall x, (x | c) -> Z.gcd x d = 1 -> (x | m1)) ->
  (forall x, (x | m1) -> Z.gcd x N = 1 -> (x | m2)) ->
  Z.gcd c (d + N * m2) = 1.
Proof.
  intros Hcdn Hm1 Hm21 Hmax1 Hmax2.
  set (G := Z.gcd c (d + N * m2)).
  assert (HGc : (G | c)) by apply Z.gcd_divide_l.
  assert (HGs : (G | d + N * m2)) by apply Z.gcd_divide_r.
  assert (HGN : Z.gcd G N = 1).
  { apply Z.divide_1_r_nonneg; [apply Z.gcd_nonneg|].
    rewrite <- Hcdn.
    assert (Hh : (Z.gcd G N | N)) by apply Z.gcd_divide_r.
    assert (Hh' : (Z.gcd G N | G)) by apply Z.gcd_divide_l.
    apply Z.gcd_greatest; auto. apply Z.gcd_greatest.
    - now apply Z.divide_trans with G.
    - apply (Z.divide_add_cancel_r _ (N * m2)).
      + now apply Z.divide_mul_l.
      + rewrite Z.add_comm. now apply Z.divide_trans with G. }
  assert (HGd : Z.gcd G d = 1).
  { apply Z.divide_1_r_nonneg; [apply Z.gcd_nonneg|].
    rewrite <- Hm1.
    assert (Hh : (Z.gcd G d | d)) by apply Z.gcd_divide_r.
    assert (Hh' : (Z.gcd G d | G)) by apply Z.gcd_divide_l.
    apply Z.gcd_greatest; auto.
    apply Z.divide_trans with m2; auto.
    apply Z.gauss with N.
    - apply (Z.divide_add_cancel_r _ d); auto.
      now apply Z.divide_trans with G.
    - now apply gcd_one_of_divide_l with G. }
  assert (HGm2 : (G | m2)) by (apply Hmax2; auto).
  apply Z.divide_1_r_nonneg; [apply Z.gcd_nonneg|]. fold G.
  rewrite <- HGd. apply Z.gcd_greatest; [apply Z.divide_refl|].
  apply (Z.divide_add_cancel_r _ (N * m2)).
  - now apply Z.divide_mul_r.
  - now rewrite Z.add_comm.
Qed.

Lemma lift_to_sl2z_sound (c d N : Z) (l : list Z) :
  lift_to_sl2z c d N = Ok l ->
  exists a3 b3 c3 d3,
    l = [a3; b3; c3; d3] /\ a3 * d3 - b3 * c3 = 1
    /\ (N | c3 - c) /\ (N | d3 - d).
Proof.
  unfold lift_to_sl2z.
  destruct ((c =? 0) && (d =? 0))%bool; [discriminate|].
  pose proof (xgcd_spec c d) as H.
  destruct (xgcd c d) as [[g z1] z2]. destruct H as [_ Hbez].
  destruct (Z.eqb_spec g 1) as [Hg|_].
  - intros [= <-]. exists z2, (- z1), c, d. repeat split.
    + lia.
    + exists 0; ring.
    + exists 0; ring.
  - set (c' := if c =? 0 then c + N else c).
    set (d' := if d =? 0 then d + N else d).
    assert (Hc : (N | c' - c)).
    { unfold c'. destruct (c =? 0); [exists 1|exists 0]; ring. }
    assert (Hd : (N | d' - d)).
    { unfold d'. destruct (d =? 0); [exists 1|exists 0]; ring. }
    destruct (prime_to c' d') as [m1| |]; try discriminate. cbn [bind].
    destruct (prime_to m1 N) as [m2| |]; try discriminate. cbn [bind].
    pose proof (xgcd_spec c' (d' + N * m2)) as H.
    destruct (xgcd c' (d' + N * m2)) as [[g' y1] y2]. destruct H as [_ Hbez'].
    destruct (Z.eqb_spec g' 1) as [Hg'|_]; [|discriminate].
    cbn [negb]. intros [= <-]. exists y2, (- y1), c', (d' + N * m2).
    repeat split; auto.
    + lia.
    + destruct Hd as [k Hk]. exists (m2 + k).
      replace (d' + N * m2 - d) with (N * m2 + (d' - d)) by ring.
      rewrite Hk. ring.
Qed.

Lemma lift_to_sl2z_returns (c d N : Z) :
  1 < N -> 0 <= c -> 0 <= d -> Z.gcd (Z.gcd c d) N = 1 ->
  exists l, lift_to_sl2z c d N = Ok l.
Proof.
  intros HN Hc Hd Hcop. unfold lift_to_sl2z.
  destruct (Z.eqb_spec c 0) as [Hc0|Hc0]; destruct (Z.eqb_spec d 0) as [Hd0|Hd0];
    cbn [andb].
  { subst c d. rewrite Z.gcd_0_l in Hcop. cbn [Z.abs] in Hcop. rewrite Z.gcd_0_l in Hcop. lia. }
  all: pose proof (xgcd_spec c d) as H;
    destruct (xgcd c d) as [[g z1] z2]; destruct H as [_ Hbez];
    destruct (Z.eqb_spec g 1) as [Hg|_]; [eexists; reflexivity|].
  all: match goal with
       | |- context [prime_to ?c' ?d'] =>
           assert (Hc' : 0 < c') by lia;
           assert (Hcop' : Z.gcd (Z.gcd c' d') N = 1);
           [ apply Z.divide_1_r_nonneg; [apply Z.gcd_nonneg|];
             rewrite <- Hcop;
             assert (H1 : (Z.gcd (Z.gcd c' d') N | N)) by apply Z.gcd_divide_r;
             assert (H2 : (Z.gcd (Z.gcd c' d') N | c'))
               by (eapply Z.divide_trans;
                   [apply Z.gcd_divide_l | apply Z.gcd_divide_l]);
             assert (H3 : (Z.gcd (Z.gcd c' d') N | d'))
               by (eapply Z.divide_trans;
                   [apply Z.gcd_divide_l | apply Z.gcd_divide_r]);
             apply Z.gcd_greatest; auto; apply Z.gcd_greatest
           | destruct (@prime_to_spec c' d' Hc')
               as (m1 & -> & Hm1 & Hd1 & Hg1 & Hx1);
             cbn [bind];
             destruct (@prime_to_spec m1 N Hm1)
               as (m2 & -> & Hm2 & Hd2 & Hg2 & Hx2);
             cbn [bind];
             pose proof (@try_harder_coprime c' d' N m1 m2 Hcop' Hg1 Hd2 Hx1 Hx2)
               as Hfin;
             pose proof (xgcd_spec c' (d' + N * m2)) as H;
             destruct (xgcd c' (d' + N * m2)) as [[g' y1] y2];
             destruct H as [Hgg _]; rewrite Hfin in Hgg; subst g';
             cbn [Z.eqb negb]; eexists; reflexivity ]
       end.
  all: subst; auto; apply Z.divide_0_r.
Qed.

End ArithFacts.

Module LiftingsFacts.
Import Arith ArithFacts Liftings.
Local Open Scope Z_scope.

Lemma divide_mod_eq (m x y : Z) : (m | x - y) -> x mod m = y mod m.
Proof.
  intros [k Hk]. replace x with (y + k * m) by lia. apply Z_mod_plus_full.
Qed.

Lemma mod_eq_divide (m x y : Z) : m <> 0 -> x mod m = y -> (m | x - y).
Proof.
  intros Hm <-. exists (x / m). rewrite (Z.mod_eq x m Hm). ring.
Qed.

Lemma divide_mul_split (m n x : Z) : (m * n | x) -> (m | x) /\ (n | x).
Proof.
  intros [k Hk]. split; [exists (k * n)|exists (k * m)]; lia.
Qed.

(** The mathematical content of the base lift: from a determinant-1 matrix
    whose bottom row matches [(c, d)] modulo [m], the top-row correction
    [r] restores [(a, b)] modulo [m]. *)
Lemma top_row_correction (a b c d m a3 b3 c3 d3 r : Z) :
  (m | a * d - b * c - 1) -> a3 * d3 - b3 * c3 = 1 ->
  (m | c3 - c) -> (m | d3 - d) -> (m | r - (a3 * b - b3 * a)) ->
  (m | a3 + r * c3 - a) /\ (m | b3 + r * d3 - b).
Proof.
  intros [kd Hdet] Hdet3 [kc Hc] [kdd Hd] [kr Hr].
  assert (Ec : c3 = c + kc * m) by lia.
  assert (Ed : d3 = d + kdd * m) by lia.
  assert (Er : r = a3 * b - b3 * a + kr * m) by lia.
  split.
  - exists (a3 * (b * kc - a * kdd - kd) + kr * c3).
    replace (a3 + r * c3 - a)
      with ((a3 * (b * kc - a * kdd - kd) + kr * c3) * m
            - a3 * (a * d - b * c - 1 - kd * m)
            + a * (a3 * d3 - b3 * c3 - 1)).
    + rewrite Hdet3 Hdet. ring.
    + subst c3 d3 r. ring.
  - exists (b3 * (b * kc - a * kdd - kd) + kr * d3).
    replace (b3 + r * d3 - b)
      with ((b3 * (b * kc - a * kdd - kd) + kr * d3) * m
            - b3 * (a * d - b * c - 1 - kd * m)
            + b * (a3 * d3 - b3 * c3 - 1)).
    + rewrite Hdet3 Hdet. ring.
    + subst c3 d3 r. ring.
Qed.


Lemma lift_to_gamma1_sound (a b c d m n : Z) (l : list Z) :
  lift_to_gamma1 [a; b; c; d] m n = Ok l -> gamma1_lift_of a b c d m n l.
Proof.
  unfold lift_to_gamma1. destruct (Z.eqb_spec m 1) as [Hm1|Hm1].
  - intros [= <-]. subst m. exists 1, 0, 0, 1.
    repeat split; try apply Z.divide_1_l; try apply Z.divide_0_r.
  - cbn [unpack4 bind]. unfold pymod at 1.
    destruct (Z.eqb_spec m 0) as [|Hm0]; [discriminate|]. cbn [bind].
    destruct (Z.eqb_spec ((a * d - b * c) mod m) 1) as [Hdet|]; [|discriminate].
    cbn [negb].
    destruct (crt c 0 m n) as [c2| |] eqn:Ec2; try discriminate. cbn [bind].
    destruct (crt d 1 m n) as [d2| |] eqn:Ed2; try discriminate. cbn [bind].
    destruct (lift_to_sl2z c2 d2 (m * n)) as [l3| |] eqn:El3; try discriminate.
    cbn [bind].
    destruct (lift_to_sl2z_sound El3) as (a3 & b3 & c3 & d3 & -> & Hdet3 & Hc3 & Hd3).
    cbn [unpack4 bind]. unfold pymod.
    destruct (Z.eqb_spec m 0) as [|_]; [contradiction|]. cbn [bind].
    intros [= <-].
    destruct (crt_sound Ec2) as [Hc2m Hc2n].
    destruct (crt_sound Ed2) as [Hd2m Hd2n].
    destruct (divide_mul_split Hc3) as [Hc3m Hc3n].
    destruct (divide_mul_split Hd3) as [Hd3m Hd3n].
    assert (Hcm : (m | c3 - c)).
    { replace (c3 - c) with ((c3 - c2) + (c2 - c)) by ring.
      now apply Z.divide_add_r. }
    assert (Hdm : (m | d3 - d)).
    { replace (d3 - d) with ((d3 - d2) + (d2 - d)) by ring.
      now apply Z.divide_add_r. }
    assert (Hcn : (n | c3)).
    { replace c3 with ((c3 - c2) + (c2 - 0)) by ring.
      now apply Z.divide_add_r. }
    assert (Hdn : (n | d3 - 1)).
    { replace (d3 - 1) with ((d3 - d2) + (d2 - 1)) by ring.
      now apply Z.divide_add_r. }
    set (r := (a3 * b - b3 * a) mod m).
    assert (Hr : (m | r - (a3 * b - b3 * a))).
    { apply Z.divide_opp_r.
      replace (- (r - (a3 * b - b3 * a))) with (a3 * b - b3 * a - r) by ring.
      now apply mod_eq_divide. }
    destruct (@top_row_correction a b c d m a3 b3 c3 d3 r) as [Ha' Hb']; auto.
    { now apply mod_eq_divide. }
    exists (a3 + r * c3), (b3 + r * d3), c3, d3.
    split; [reflexivity|]. split; [rewrite <- Hdet3; ring|].
    split; [now repeat split|]. repeat split; auto.
    destruct Hcn as [kc Hkc]. destruct Hdn as [kd Hkd].
    exists ((r + b3) * kc - a3 * kd).
    replace (a3 + r * c3 - 1)
      with (a3 + r * c3 - (a3 * d3 - b3 * c3)) by (rewrite Hdet3; ring).
    replace d3 with (1 + kd * n) by lia. rewrite Hkc. ring.
Qed.

Lemma lift_to_gamma1_returns (a b c d m n : Z) :
  2 <= m -> 0 < n -> Z.gcd m n = 1 -> (a * d - b * c) mod m = 1 ->
  exists l, lift_to_gamma1 [a; b; c; d] m n = Ok l.
Proof.
  intros Hm Hn Hcop Hdet. unfold lift_to_gamma1.
  destruct (Z.eqb_spec m 1) as [|_]; [lia|].
  cbn [unpack4 bind]. unfold pymod.
  destruct (Z.eqb_spec m 0) as [|Hm0]; [lia|]. cbn [bind].
  rewrite Hdet. cbn [Z.eqb negb].
  destruct (@crt_returns c 0 m n) as (c2 & Ec2 & Hc2); try lia.
  destruct (@crt_returns d 1 m n) as (d2 & Ed2 & Hd2); try lia.
  rewrite Ec2 Ed2. cbn [bind].
  destruct (crt_sound Ec2) as [Hc2m Hc2n].
  destruct (crt_sound Ed2) as [Hd2m Hd2n].
  destruct (@lift_to_sl2z_returns c2 d2 (m * n)) as [l3 El3]; try nia.
  { set (h := Z.gcd (Z.gcd c2 d2) (m * n)).
    assert (Hhc : (h | c2)).
    { eapply Z.divide_trans; [apply Z.gcd_divide_l|apply Z.gcd_divide_l]. }
    assert (Hhd : (h | d2)).
    { eapply Z.divide_trans; [apply Z.gcd_divide_l|apply Z.gcd_divide_r]. }
    assert (Hhmn : (h | m * n)) by apply Z.gcd_divide_r.
    assert (Hhn : Z.gcd h n = 1).
    { apply Z.divide_1_r_nonneg; [apply Z.gcd_nonneg|].
      assert (H1 : (Z.gcd h n | d2))
        by (eapply Z.divide_trans; [apply Z.gcd_divide_l|exact Hhd]).
      assert (H2 : (Z.gcd h n | d2 - 1))
        by (eapply Z.divide_trans; [apply Z.gcd_divide_r|exact Hd2n]).
      replace 1 with (d2 - (d2 - 1)) by ring. now apply Z.divide_sub_r. }
    assert (Hhm : (h | m)).
    { apply Z.gauss with n; [now rewrite Z.mul_comm|exact Hhn]. }
    assert (Hc' : (h | c)).
    { replace c with (c2 - (c2 - c)) by ring. apply Z.divide_sub_r; auto.
      now apply Z.divide_trans with m. }
    assert (Hd' : (h | d)).
    { replace d with (d2 - (d2 - d)) by ring. apply Z.divide_sub_r; auto.
      now apply Z.divide_trans with m. }
    apply Z.divide_1_r_nonneg; [apply Z.gcd_nonneg|]. fold h.
    assert (Hdd : (m | a * d - b * c - 1)) by (apply mod_eq_divide; auto).
    replace 1 with ((a * d - b * c) - (a * d - b * c - 1)) by ring.
    apply Z.divide_sub_r.
    - apply Z.divide_sub_r; [now apply Z.divide_mul_r|now apply Z.divide_mul_r].
    - now apply Z.divide_trans with m. }
  rewrite El3. cbn [bind].
  destruct (lift_to_sl2z_sound El3) as (a3 & b3 & c3 & d3 & -> & _).
  cbn [unpack4 bind]. destruct (Z.eqb_spec m 0) as [|_]; [lia|]. cbn [bind].
  eexists; reflexivity.
Qed.

End LiftingsFacts.

Module RamifiedFacts.
Import Arith ArithFacts Liftings LiftingsFacts.
Local Open Scope Z_scope.

Lemma prime_power_modulus (p u n : Z) :
  1 < p -> 1 <= u -> Z.gcd p n = 1 ->
  2 <= p ^ u /\ (p | p ^ u) /\ p ^ (u + 1) = p ^ u * p /\ Z.gcd (p ^ u) n = 1.
Proof.
  intros Hp Hu Hcop. split; [|split; [|split]].
  - assert (1 < p ^ u) by (apply Z.pow_gt_1; lia). lia.
  - now apply Z.divide_pow_same_r.
  - replace (u + 1) with (Z.succ u) by lia. rewrite Z.pow_succ_r; lia.
  - apply Z.coprime_pow_l; [lia|exact Hcop].
Qed.

Lemma lift_ramified_run (a b c d p u n : Z) :
  1 < p -> 1 <= u -> 0 < n -> Z.gcd p n = 1 -> (p | c) ->
  (a * d - b * c) mod p ^ u = 1 ->
  exists out, lift_ramified [a; b; c; d] p u n = Ok out
              /\ ramified_run a b c d p u n out.
Proof.
  intros Hp Hu Hn Hcop Hpc Hdet.
  destruct (@prime_power_modulus p u n Hp Hu Hcop) as (Hm & Hpm & _ & Hcopm).
  destruct (@lift_to_gamma1_returns a b c d (p ^ u) n Hm Hn Hcopm Hdet) as [l El].
  destruct (lift_to_gamma1_sound El)
    as (a1 & b1 & c1 & d1 & -> & Hdet1 & (Ha & Hb & Hc & Hd) & (Hna & Hnc & Hnd)).
  assert (Hpc1 : (p | c1)).
  { replace c1 with ((c1 - c) + c) by ring. apply Z.divide_add_r; auto.
    now apply Z.divide_trans with (p ^ u). }
  assert (Hunit : (p | a1 * d1 - 1)).
  { replace (a1 * d1 - 1) with (b1 * c1) by lia. now apply Z.divide_mul_r. }
  assert (Hgcd : Z.gcd a1 p = 1).
  { apply Z.bezout_1_gcd. destruct Hunit as [k Hk]. exists d1, (- k). lia. }
  destruct (@inverse_mod_returns a1 p) as [ia Eia]; auto; try lia.
  destruct (@crt_returns ((c1 - c) / p ^ u * ia) 0 p n) as (r & Er & _); auto; try lia.
  destruct (crt_sound Er) as [Hrp Hrn]. rewrite Z.sub_0_r in Hrn.
  exists [a1; b1; c1 - p ^ u * r * a1; d1 - p ^ u * r * b1]. split.
  - unfold lift_ramified. rewrite El. cbn [bind unpack4 getitem nth_error].
    rewrite Eia. cbn [bind]. rewrite Er. reflexivity.
  - eapply (@RamifiedRun a b c d p u n _ a1 b1 c1 d1 ia r); eauto.
    now apply inverse_mod_sound.
Qed.

Lemma ramified_run_det (a b c d p u n : Z) (out : list Z) :
  ramified_run a b c d p u n out ->
  exists a' b' c' d', out = [a'; b'; c'; d'] /\ a' * d' - b' * c' = 1
    /\ (p ^ u | a' - a) /\ (p ^ u | b' - b) /\ (p ^ u | c' - c) /\ (p ^ u | d' - d)
    /\ (n | a' - 1) /\ (n | c') /\ (n | d' - 1).
Proof.
  intros [a1 b1 c1 d1 ia r _ Hdet Ha Hb Hc Hd Hna Hnc Hnd _ _ _ _ _ Hrn ->].
  do 4 eexists. split; [reflexivity|]. split; [rewrite <- Hdet; ring|].
  repeat split; auto.
  - replace (c1 - p ^ u * r * a1 - c) with ((c1 - c) - p ^ u * (r * a1)) by ring.
    apply Z.divide_sub_r; auto. now apply Z.divide_mul_l, Z.divide_refl.
  - replace (d1 - p ^ u * r * b1 - d) with ((d1 - d) - p ^ u * (r * b1)) by ring.
    apply Z.divide_sub_r; auto. now apply Z.divide_mul_l, Z.divide_refl.
  - apply Z.divide_sub_r; auto.
    replace (p ^ u * r * a1) with (r * (p ^ u * a1)) by ring.
    now apply Z.divide_mul_l.
  - replace (d1 - p ^ u * r * b1 - 1) with ((d1 - 1) - r * (p ^ u * b1)) by ring.
    apply Z.divide_sub_r; auto. now apply Z.divide_mul_l.
Qed.

Lemma ramified_run_extra_power (a b c d p u n : Z) (out : list Z) :
  1 < p -> 1 <= u ->
  ramified_run a b c d p u n out ->
  exists a' b' c' d', out = [a'; b'; c'; d'] /\ (p ^ (u + 1) | c' - c).
Proof.
  intros Hp Hu [a1 b1 c1 d1 ia r _ _ _ _ Hc _ _ _ _ _ _ Hinv _ Hrp _ ->].
  do 4 eexists. split; [reflexivity|].
  replace (u + 1) with (Z.succ u) by lia. rewrite Z.pow_succ_r; try lia.
  assert (Hpu : p ^ u <> 0) by (apply Z.pow_nonzero; lia).
  assert (Hq : c1 - c = p ^ u * ((c1 - c) / p ^ u)).
  { apply Z_div_exact_full_2; auto. now apply Z.mod_divide. }
  set (q := (c1 - c) / p ^ u) in *.
  destruct Hinv as [k2 Hk2]. destruct Hrp as [k1 Hk1].
  exists (- (q * k2 + k1 * a1)).
  replace (c1 - p ^ u * r * a1 - c) with ((c1 - c) - p ^ u * r * a1) by ring.
  rewrite Hq. replace r with (q * ia + k1 * p) by lia.
  replace (p ^ u * q - p ^ u * (q * ia + k1 * p) * a1)
    with (p ^ u * (- q * (a1 * ia - 1) - k1 * p * a1)) by ring.
  rewrite Hk2. ring.
Qed.

End RamifiedFacts.

Module LiftingsErrors.
Import Arith ArithFacts Liftings LiftingsFacts.
Local Open Scope Z_scope.

Lemma det_msg_is_det_error (det m : Z) : is_det_error (ValueError (det_msg det m)) = true.
Proof. reflexivity. Qed.

Lemma crt_raises (a b m n : Z) (e : exn) :
  crt a b m n = Raise e -> is_det_error e = false.
Proof.
  unfold crt. destruct (xgcd m n) as [[g alpha] beta].
  destruct (g =? 0); [now intros [= <-]|].
  destruct (negb ((b - a) mod g =? 0)); [now intros [= <-]|].
  unfold pymod. destruct (Z.lcm m n =? 0); [now intros [= <-]|].
  discriminate.
Qed.

Lemma prime_to_raises (m d : Z) (e : exn) : prime_to m d <> Raise e.
Proof. unfold prime_to. now destruct (prime_to_part _ m d). Qed.

Lemma lift_to_sl2z_raises (c d N : Z) (e : exn) :
  lift_to_sl2z c d N = Raise e -> is_det_error e = false.
Proof.
  unfold lift_to_sl2z. destruct ((c =? 0) && (d =? 0))%bool; [now intros [= <-]|].
  destruct (xgcd c d) as [[g z1] z2]. destruct (g =? 1); [discriminate|].
  set (c' := if c =? 0 then c + N else c).
  set (d' := if d =? 0 then d + N else d).
  destruct (prime_to c' d') as [m1|e1|] eqn:E1; cbn [bind];
    [|now apply prime_to_raises in E1|discriminate].
  destruct (prime_to m1 N) as [m2|e2|] eqn:E2; cbn [bind];
    [|now apply prime_to_raises in E2|discriminate].
  destruct (xgcd c' (d' + N * m2)) as [[g' y1] y2].
  destruct (negb (g' =? 1)); [now intros [= <-]|discriminate].
Qed.

Lemma lift_to_gamma1_det_error (a b c d m n : Z) :
  m <> 0 -> m <> 1 ->
  lift_to_gamma1 [a; b; c; d] m n
    = Raise (ValueError (det_msg ((a * d - b * c) mod m) m))
  <-> (a * d - b * c) mod m <> 1.
Proof.
  intros Hm0 Hm1. unfold lift_to_gamma1.
  destruct (Z.eqb_spec m 1) as [|_]; [contradiction|].
  cbn [unpack4 bind]. unfold pymod.
  destruct (Z.eqb_spec m 0) as [|_]; [contradiction|]. cbn [bind].
  destruct (Z.eqb_spec ((a * d - b * c) mod m) 1) as [Hdet|Hdet]; cbn [negb].
  - split; [|contradiction]. intros H. exfalso.
    assert (Hbad : is_det_error (ValueError (det_msg ((a * d - b * c) mod m) m)) = false);
      [|now rewrite det_msg_is_det_error in Hbad].
    revert H. generalize (ValueError (det_msg ((a * d - b * c) mod m) m)). intros e.
    destruct (crt c 0 m n) as [c2|e1|] eqn:Ec2; cbn [bind];
      [|intros [= <-]; now apply crt_raises in Ec2|discriminate].
    destruct (crt d 1 m n) as [d2|e1|] eqn:Ed2; cbn [bind];
      [|intros [= <-]; now apply crt_raises in Ed2|discriminate].
    destruct (lift_to_sl2z c2 d2 (m * n)) as [l3|e1|] eqn:El3; cbn [bind];
      [|intros [= <-]; now apply lift_to_sl2z_raises in El3|discriminate].
    destruct (lift_to_sl2z_sound El3) as (a3 & b3 & c3 & d3 & -> & _).
    cbn [unpack4 bind]. discriminate.
  - split; [auto|reflexivity].
Qed.

End LiftingsErrors.

Module Claims2x2.
Import Arith ArithFacts Liftings LiftingsFacts RamifiedFacts LiftingsErrors.
Local Open Scope Z_scope.

(** C1. Base lift contract: for integers [a b c d] and coprime positive
    moduli [m >= 2], [n] with [a*d - b*c = 1 (mod m)], [lift_to_gamma1]
    returns four integers of determinant exactly 1 that agree with
    [(a, b, c, d)] modulo [m] and satisfy [a' = 1], [c' = 0], [d' = 1]
    modulo [n]. *)
Theorem lift_to_gamma1_contract (a b c d m n : Z) :
  2 <= m -> 0 < n -> Z.gcd m n = 1 -> (a * d - b * c) mod m = 1 ->
  exists a' b' c' d',
    lift_to_gamma1 [a; b; c; d] m n = Ok [a'; b'; c'; d']
    /\ a' * d' - b' * c' = 1
    /\ (a' mod m = a mod m /\ b' mod m = b mod m
        /\ c' mod m = c mod m /\ d' mod m = d mod m)
    /\ (a' mod n = 1 mod n /\ c' mod n = 0 /\ d' mod n = 1 mod n).
Proof.
  intros Hm Hn Hcop Hdet.
  destruct (@lift_to_gamma1_returns a b c d m n Hm Hn Hcop Hdet) as [l El].
  destruct (lift_to_gamma1_sound El)
    as (a' & b' & c' & d' & -> & Hdet' & (Ha & Hb & Hc & Hd) & (Hna & Hnc & Hnd)).
  exists a', b', c', d'. split; [exact El|]. split; [exact Hdet'|]. split.
  - now rewrite (divide_mod_eq Ha) (divide_mod_eq Hb) (divide_mod_eq Hc)
      (divide_mod_eq Hd).
  - rewrite (divide_mod_eq Hna) (divide_mod_eq Hnd). repeat split.
    now apply Z.mod0_divide.
Qed.

Lemma lift_to_gamma1_contract_witness :
  exists a' b' c' d',
    lift_to_gamma1 [10; 11; 3; 11] 19 5 = Ok [a'; b'; c'; d']
    /\ a' * d' - b' * c' = 1
    /\ (a' mod 19 = 10 mod 19 /\ b' mod 19 = 11 mod 19
        /\ c' mod 19 = 3 mod 19 /\ d' mod 19 = 11 mod 19)
    /\ (a' mod 5 = 1 mod 5 /\ c' mod 5 = 0 /\ d' mod 5 = 1 mod 5).
Proof.
  apply (@lift_to_gamma1_contract 10 11 3 11 19 5);
    [lia | lia | reflexivity | reflexivity].
Defined.

(** C3. Ramified lift contract: for [p] prime, [u >= 1], a modulus [n]
    coprime to [p], [p | c] and [a*d - b*c = 1 (mod p^u)], [lift_ramified]
    returns four integers that agree with [(a, b, c, d)] modulo [p^u],
    whose lower-left entry agrees with [c] modulo [p^(u+1)], whose
    determinant is exactly 1 and which are upper unitriangular modulo [n]. *)
Theorem lift_ramified_contract (a b c d p u n : Z) :
  Z.prime p -> 1 <= u -> 0 < n -> Z.gcd p n = 1 -> (p | c) ->
  (a * d - b * c) mod p ^ u = 1 ->
  exists a' b' c' d',
    lift_ramified [a; b; c; d] p u n = Ok [a'; b'; c'; d']
    /\ (a' mod p ^ u = a mod p ^ u /\ b' mod p ^ u = b mod p ^ u
        /\ c' mod p ^ u = c mod p ^ u /\ d' mod p ^ u = d mod p ^ u)
    /\ c' mod p ^ (u + 1) = c mod p ^ (u + 1)
    /\ a' * d' - b' * c' = 1
    /\ (a' mod n = 1 mod n /\ c' mod n = 0 /\ d' mod n = 1 mod n).
Proof.
  intros Hprime Hu Hn Hcop Hpc Hdet.
  assert (Hp : 1 < p) by (apply Z.prime_ge_2 in Hprime; lia).
  destruct (@lift_ramified_run a b c d p u n Hp Hu Hn Hcop Hpc Hdet)
    as (out & Eout & Hrun).
  destruct (ramified_run_det Hrun)
    as (a' & b' & c' & d' & -> & Hdet' & Ha & Hb & Hc & Hd & Hna & Hnc & Hnd).
  destruct (ramified_run_extra_power Hp Hu Hrun)
    as (a2 & b2 & c2 & d2 & [= <- <- <- <-] & Hextra).
  exists a', b', c', d'. split; [exact Eout|]. split; [|split; [|split]].
  - now rewrite (divide_mod_eq Ha) (divide_mod_eq Hb) (divide_mod_eq Hc)
      (divide_mod_eq Hd).
  - exact (divide_mod_eq Hextra).
  - exact Hdet'.
  - rewrite (divide_mod_eq Hna) (divide_mod_eq Hnd). repeat split.
    now apply Z.mod0_divide.
Qed.

Lemma lift_ramified_contract_witness :
  exists a' b' c' d',
    lift_ramified [8; 2; 12; 2] 3 2 23 = Ok [a'; b'; c'; d']
    /\ (a' mod 3 ^ 2 = 8 mod 3 ^ 2 /\ b' mod 3 ^ 2 = 2 mod 3 ^ 2
        /\ c' mod 3 ^ 2 = 12 mod 3 ^ 2 /\ d' mod 3 ^ 2 = 2 mod 3 ^ 2)
    /\ c' mod 3 ^ (2 + 1) = 12 mod 3 ^ (2 + 1)
    /\ a' * d' - b' * c' = 1
    /\ (a' mod 23 = 1 mod 23 /\ c' mod 23 = 0 /\ d' mod 23 = 1 mod 23).
Proof.
  apply (@lift_ramified_contract 8 2 12 2 3 2 23);
    [exact Z.prime_3 | lia | lia | reflexivity | exists 4; reflexivity | reflexivity].
Defined.

(** C4 (as the code has it). [lift_matrix_to_sl2z] on [(10, 11, 3, 11)]
    with modulus 19 returns [(29, 106, 3, 11)], of determinant 1 and equal
    to the input modulo 19; [(371, 68, 60, 11)] is what the base lift
    returns on the same list for the moduli [m = 19], [n = 5]. *)
Theorem lift_matrix_to_sl2z_example :
  lift_matrix_to_sl2z [10; 11; 3; 11] 19 = Ok [29; 106; 3; 11]
  /\ 29 * 11 - 106 * 3 = 1
  /\ List.map (fun x => x mod 19) [29; 106; 3; 11] = [10; 11; 3; 11]
  /\ lift_to_gamma1 [10; 11; 3; 11] 19 5 = Ok [371; 68; 60; 11].
Proof. repeat split; vm_compute; reflexivity. Qed.

(** C4 as stated fails: the plain lift of [(10, 11, 3, 11)] modulo 19 is
    not [(371, 68, 60, 11)]. *)
Lemma lift_matrix_to_sl2z_example_refuted :
  lift_matrix_to_sl2z [10; 11; 3; 11] 19 <> Ok [371; 68; 60; 11].
Proof. vm_compute. discriminate. Qed.

(** C5 at [(p, u, n) = (3, 2, 11)]: the uniformiser lift is the generator
    lift with its first column scaled by [p] and has determinant [p], but
    its upper-right entry is 3, not 0, modulo [n]. *)
Theorem lift_uniformiser_odd_upper_right :
  lift_gen_to_gamma1 (3 ^ 2) 11 = Ok [144; 377; 55; 144]
  /\ lift_uniformiser_odd 3 2 11 = Ok [3 * 144; 377; 3 * 55; 144]
  /\ (3 * 144) * 144 - 377 * (3 * 55) = 3
  /\ List.map (fun x => x mod 11) [3 * 144; 377; 3 * 55; 144] = [3; 3; 0; 1].
Proof. repeat split; vm_compute; reflexivity. Qed.

(** C6. For a modulus [m >= 2] the base lift, and with it the plain lift,
    raises the [ValueError] that reports the residue [(a*d - b*c) mod m]
    and [m] exactly when that residue is not 1; [(2, 0, 0, 1)] modulo 5
    raises it with the message of the docstring; valid input raises
    nothing. *)
Theorem lift_to_gamma1_raises_iff (a b c d m n : Z) :
  2 <= m ->
  (lift_to_gamma1 [a; b; c; d] m n
     = Raise (ValueError (det_msg ((a * d - b * c) mod m) m))
   <-> (a * d - b * c) mod m <> 1)
  /\ (lift_matrix_to_sl2z [a; b; c; d] m
        = Raise (ValueError (det_msg ((a * d - b * c) mod m) m))
      <-> (a * d - b * c) mod m <> 1)
  /\ lift_matrix_to_sl2z [2; 0; 0; 1] 5
       = Raise (ValueError "Determinant is 2 mod 5, should be 1")
  /\ ((a * d - b * c) mod m = 1 -> 0 < n -> Z.gcd m n = 1 ->
      returns (lift_to_gamma1 [a; b; c; d] m n) = true
      /\ returns (lift_matrix_to_sl2z [a; b; c; d] m) = true).
Proof.
  intros Hm. split; [|split; [|split]].
  - apply lift_to_gamma1_det_error; lia.
  - apply lift_to_gamma1_det_error; lia.
  - reflexivity.
  - intros Hdet Hn Hcop. split.
    + destruct (@lift_to_gamma1_returns a b c d m n Hm Hn Hcop Hdet) as [l ->].
      reflexivity.
    + unfold lift_matrix_to_sl2z.
      destruct (@lift_to_gamma1_returns a b c d m 1 Hm) as [l ->]; auto; try lia.
      apply Z.gcd_1_r.
Qed.

Lemma lift_to_gamma1_raises_iff_witness :
  (lift_to_gamma1 [2; 0; 0; 1] 5 3
     = Raise (ValueError (det_msg ((2 * 1 - 0 * 0) mod 5) 5))
   <-> (2 * 1 - 0 * 0) mod 5 <> 1)
  /\ (lift_matrix_to_sl2z [2; 0; 0; 1] 5
        = Raise (ValueError (det_msg ((2 * 1 - 0 * 0) mod 5) 5))
      <-> (2 * 1 - 0 * 0) mod 5 <> 1)
  /\ lift_matrix_to_sl2z [2; 0; 0; 1] 5
       = Raise (ValueError "Determinant is 2 mod 5, should be 1")
  /\ ((2 * 1 - 0 * 0) mod 5 = 1 -> 0 < 3 -> Z.gcd 5 3 = 1 ->
      returns (lift_to_gamma1 [2; 0; 0; 1] 5 3) = true
      /\ returns (lift_matrix_to_sl2z [2; 0; 0; 1] 5) = true).
Proof. apply (@lift_to_gamma1_raises_iff 2 0 0 1 5 3). lia. Defined.

(** C7. With [m = 1] the base lift returns the identity [(1, 0, 0, 1)]
    for every list [g] (of any length and content) and every [n]; nothing
    is checked and nothing is raised. *)
Theorem lift_to_gamma1_modulus_one (g : list Z) (n : Z) :
  lift_to_gamma1 g 1 n = Ok [1; 0; 0; 1].
Proof. reflexivity. Qed.

(** C8. The plain lift is the base lift with [n = 1], and the generator
    lift is the base lift of [(0, -1, 1, 0)]. *)
Theorem specialisations_of_base_lift :
  (forall (A : list Z) (N : Z), lift_matrix_to_sl2z A N = lift_to_gamma1 A N 1)
  /\ (forall m n : Z, lift_gen_to_gamma1 m n = lift_to_gamma1 [0; -1; 1; 0] m n).
Proof. split; intros; reflexivity. Qed.

(** C10. On valid input the intermediate arithmetic of [lift_ramified] is
    well defined: the base lift returns, [p^u] divides [c1 - g[2]] so the
    quotient is exact, [a1 * d1 = 1 (mod p)] so [a1] has an inverse modulo
    [p], and both [inverse_mod] and [crt] return. *)
Theorem lift_ramified_arithmetic_safe (a b c d p u n : Z) :
  Z.prime p -> 1 <= u -> 0 < n -> Z.gcd p n = 1 -> (p | c) ->
  (a * d - b * c) mod p ^ u = 1 ->
  exists a1 b1 c1 d1 ia r,
    lift_to_gamma1 [a; b; c; d] (p ^ u) n = Ok [a1; b1; c1; d1]
    /\ a1 * d1 - b1 * c1 = 1
    /\ c1 mod p ^ u = c mod p ^ u
    /\ p ^ u * ((c1 - c) / p ^ u) = c1 - c
    /\ (p | c1) /\ (a1 * d1) mod p = 1
    /\ inverse_mod a1 p = Ok ia /\ (a1 * ia) mod p = 1
    /\ crt ((c1 - c) / p ^ u * ia) 0 p n = Ok r.
Proof.
  intros Hprime Hu Hn Hcop Hpc Hdet.
  assert (Hp : 1 < p) by (apply Z.prime_ge_2 in Hprime; lia).
  destruct (@lift_ramified_run a b c d p u n Hp Hu Hn Hcop Hpc Hdet)
    as (out & _ & [a1 b1 c1 d1 ia r Hbase Hdet1 _ _ Hc _ _ _ _ Hunit Hinv Hinvok Hcrt _ _ _]).
  destruct (@prime_power_modulus p u n Hp Hu Hcop) as (Hm & Hpm & _ & _).
  exists a1, b1, c1, d1, ia, r.
  split; [exact Hbase|]. split; [exact Hdet1|]. split; [exact (divide_mod_eq Hc)|].
  split; [|split; [|split; [|split; [|split]]]]; auto.
  - symmetry. apply Z_div_exact_full_2; [lia|]. now apply Z.mod0_divide.
  - replace c1 with ((c1 - c) + c) by ring. apply Z.divide_add_r; auto.
    now apply Z.divide_trans with (p ^ u).
  - rewrite (divide_mod_eq Hunit). apply Z.mod_1_l. lia.
  - rewrite (divide_mod_eq Hinvok). apply Z.mod_1_l. lia.
Qed.

Lemma lift_ramified_arithmetic_safe_witness :
  exists a1 b1 c1 d1 ia r,
    lift_to_gamma1 [2; 2; 3; 2] (3 ^ 1) 1 = Ok [a1; b1; c1; d1]
    /\ a1 * d1 - b1 * c1 = 1
    /\ c1 mod 3 ^ 1 = 3 mod 3 ^ 1
    /\ 3 ^ 1 * ((c1 - 3) / 3 ^ 1) = c1 - 3
    /\ (3 | c1) /\ (a1 * d1) mod 3 = 1
    /\ inverse_mod a1 3 = Ok ia /\ (a1 * ia) mod 3 = 1
    /\ crt ((c1 - 3) / 3 ^ 1 * ia) 0 3 1 = Ok r.
Proof.
  apply (@lift_ramified_arithmetic_safe 2 2 3 2 3 1 1);
    [exact Z.prime_3 | lia | lia | reflexivity | exists 1; reflexivity | reflexivity].
Defined.

End Claims2x2.

Module Further2x2.
Import Arith ArithFacts Liftings LiftingsFacts RamifiedFacts.
Local Open Scope Z_scope.

(** X2.  The plain lift: for [N >= 2] and [a*d - b*c = 1 (mod N)],
    [lift_matrix_to_sl2z] returns a matrix of determinant exactly 1 that
    agrees with the input modulo [N]. *)
Theorem lift_matrix_to_sl2z_contract (a b c d N : Z) :
  2 <= N -> (a * d - b * c) mod N = 1 ->
  exists a' b' c' d',
    lift_matrix_to_sl2z [a; b; c; d] N = Ok [a'; b'; c'; d']
    /\ a' * d' - b' * c' = 1
    /\ a' mod N = a mod N /\ b' mod N = b mod N
    /\ c' mod N = c mod N /\ d' mod N = d mod N.
Proof.
  intros HN Hdet. unfold lift_matrix_to_sl2z.
  destruct (@lift_to_gamma1_returns a b c d N 1) as [l El]; auto; try lia.
  { apply Z.gcd_1_r. }
  destruct (lift_to_gamma1_sound El)
    as (a' & b' & c' & d' & -> & Hdet' & (Ha & Hb & Hc & Hd) & _).
  exists a', b', c', d'. split; [exact El|]. split; [exact Hdet'|].
  now rewrite (divide_mod_eq Ha) (divide_mod_eq Hb) (divide_mod_eq Hc)
    (divide_mod_eq Hd).
Qed.

Lemma lift_matrix_to_sl2z_contract_witness :
  exists a' b' c' d',
    lift_matrix_to_sl2z [10; 11; 3; 11] 19 = Ok [a'; b'; c'; d']
    /\ a' * d' - b' * c' = 1
    /\ a' mod 19 = 10 mod 19 /\ b' mod 19 = 11 mod 19
    /\ c' mod 19 = 3 mod 19 /\ d' mod 19 = 11 mod 19.
Proof.
  apply (@lift_matrix_to_sl2z_contract 10 11 3 11 19); [lia | reflexivity].
Defined.

(** X1.  The uniformiser lift, as the code has it: the generator lift modulo
    [p^u] and [n] with its first column multiplied by [p]; its determinant
    is exactly [p], it is [(0, -1, p, 0)] modulo [p^u], and modulo [n] its
    first column is [(p, 0)] and its lower-right entry is 1. *)
Theorem lift_uniformiser_odd_contract (p u n : Z) :
  Z.prime p -> 1 <= u -> 0 < n -> Z.gcd p n = 1 ->
  exists g0 g1 g2 g3,
    lift_gen_to_gamma1 (p ^ u) n = Ok [g0; g1; g2; g3]
    /\ lift_uniformiser_odd p u n = Ok [p * g0; g1; p * g2; g3]
    /\ (p * g0) * g3 - g1 * (p * g2) = p
    /\ ((p * g0) mod p ^ u = 0 /\ g1 mod p ^ u = (- 1) mod p ^ u
        /\ (p * g2) mod p ^ u = p mod p ^ u /\ g3 mod p ^ u = 0)
    /\ ((p * g0) mod n = p mod n /\ (p * g2) mod n = 0 /\ g3 mod n = 1 mod n).
Proof.
  intros Hprime Hu Hn Hcop.
  assert (Hp : 1 < p) by (apply Z.prime_ge_2 in Hprime; lia).
  destruct (@prime_power_modulus p u n Hp Hu Hcop) as (Hm & _ & _ & Hcopm).
  assert (Hdet : (0 * 0 - -1 * 1) mod p ^ u = 1) by (apply Z.mod_1_l; lia).
  destruct (@lift_to_gamma1_returns 0 (-1) 1 0 (p ^ u) n Hm Hn Hcopm Hdet)
    as [l El].
  destruct (lift_to_gamma1_sound El)
    as (g0 & g1 & g2 & g3 & -> & Hdet' & (Ha & Hb & Hc & Hd) & (Hna & Hnc & Hnd)).
  exists g0, g1, g2, g3. split; [exact El|]. split.
  { unfold lift_uniformiser_odd, lift_gen_to_gamma1. rewrite El. reflexivity. }
  split; [rewrite <- (Z.mul_1_r p) at 3; rewrite <- Hdet'; ring|].
  split; [split; [|split; [|split]]|split; [|split]].
  - apply Z.mod0_divide. rewrite Z.sub_0_r in Ha. now apply Z.divide_mul_r.
  - exact (divide_mod_eq Hb).
  - apply divide_mod_eq. replace (p * g2 - p) with (p * (g2 - 1)) by ring.
    now apply Z.divide_mul_r.
  - apply Z.mod0_divide. now rewrite Z.sub_0_r in Hd.
  - apply divide_mod_eq. replace (p * g0 - p) with (p * (g0 - 1)) by ring.
    now apply Z.divide_mul_r.
  - apply Z.mod0_divide. now apply Z.divide_mul_r.
  - exact (divide_mod_eq Hnd).
Qed.

Lemma lift_uniformiser_odd_contract_witness :
  exists g0 g1 g2 g3,
    lift_gen_to_gamma1 (3 ^ 2) 11 = Ok [g0; g1; g2; g3]
    /\ lift_uniformiser_odd 3 2 11 = Ok [3 * g0; g1; 3 * g2; g3]
    /\ (3 * g0) * g3 - g1 * (3 * g2) = 3
    /\ ((3 * g0) mod 3 ^ 2 = 0 /\ g1 mod 3 ^ 2 = (- 1) mod 3 ^ 2
        /\ (3 * g2) mod 3 ^ 2 = 3 mod 3 ^ 2 /\ g3 mod 3 ^ 2 = 0)
    /\ ((3 * g0) mod 11 = 3 mod 11 /\ (3 * g2) mod 11 = 0 /\ g3 mod 11 = 1 mod 11).
Proof.
  apply (@lift_uniformiser_odd_contract 3 2 11);
    [exact Z.prime_3 | lia | lia | reflexivity].
Defined.

(** The examples of the docstrings of [liftings.py], evaluated. *)
Theorem docstring_examples :
  lift_to_gamma1 [10; 11; 3; 11] 19 5 = Ok [371; 68; 60; 11]
  /\ lift_to_gamma1 [1; 1; 0; 1] 5 1 = Ok [1; 1; 0; 1]
  /\ lift_to_gamma1 [2; 3; 11; 22] 1 5 = Ok [1; 0; 0; 1]
  /\ lift_matrix_to_sl2z [10; 11; 3; 11] 19 = Ok [29; 106; 3; 11]
  /\ lift_gen_to_gamma1 9 8 = Ok [441; 62; 64; 9]
  /\ lift_uniformiser_odd 3 2 11 = Ok [432; 377; 165; 144]
  /\ lift_ramified [2; 2; 3; 2] 3 1 1 = Ok [5; 8; 3; 5]
  /\ lift_ramified [8; 2; 12; 2] 3 2 23 = Ok [323; 110; -133584; -45493].
Proof. repeat split; vm_compute; reflexivity. Qed.

(** X3.  Whatever the moduli, a value the base lift returns satisfies its
    contract: determinant exactly 1, equal to the input modulo [m], upper
    unitriangular modulo [n]. *)
Theorem lift_to_gamma1_partial_correctness (a b c d m n a' b' c' d' : Z) :
  lift_to_gamma1 [a; b; c; d] m n = Ok [a'; b'; c'; d'] ->
  a' * d' - b' * c' = 1
  /\ (a' mod m = a mod m /\ b' mod m = b mod m
      /\ c' mod m = c mod m /\ d' mod m = d mod m)
  /\ (a' mod n = 1 mod n /\ (n | c') /\ d' mod n = 1 mod n).
Proof.
  intros El.
  destruct (lift_to_gamma1_sound El)
    as (a2 & b2 & c2 & d2 & [= -> -> -> ->] & Hdet' & (Ha & Hb & Hc & Hd)
        & (Hna & Hnc & Hnd)).
  split; [exact Hdet'|]. split.
  - now rewrite (divide_mod_eq Ha) (divide_mod_eq Hb) (divide_mod_eq Hc)
      (divide_mod_eq Hd).
  - now rewrite (divide_mod_eq Hna) (divide_mod_eq Hnd).
Qed.

Lemma lift_to_gamma1_partial_correctness_witness :
  371 * 11 - 68 * 60 = 1
  /\ (371 mod 19 = 10 mod 19 /\ 68 mod 19 = 11 mod 19
      /\ 60 mod 19 = 3 mod 19 /\ 11 mod 19 = 11 mod 19)
  /\ (371 mod 5 = 1 mod 5 /\ (5 | 60) /\ 11 mod 5 = 1 mod 5).
Proof.
  apply (@lift_to_gamma1_partial_correctness 10 11 3 11 19 5 371 68 60 11).
  reflexivity.
Defined.

End Further2x2.

Module EdgeFacts.
Import Arith ArithFacts Liftings LiftingsFacts RamifiedFacts LiftingsErrors.
Local Open Scope Z_scope.

Lemma lcm_pos (m n : Z) : 0 < m -> 0 < n -> 0 < Z.lcm m n.
Proof.
  intros Hm Hn. assert (H := Z.lcm_nonneg m n).
  assert (Z.lcm m n <> 0); [|lia].
  intros E. apply Z.lcm_eq_0 in E. lia.
Qed.

Lemma crt_solvable (a b m n : Z) :
  0 < m -> 0 < n -> (Z.gcd m n | b - a) ->
  exists x, crt a b m n = Ok x /\ 0 <= x < Z.lcm m n.
Proof.
  intros Hm Hn Hdiv. unfold crt. pose proof (xgcd_spec m n) as H.
  destruct (xgcd m n) as [[g alpha] beta]. destruct H as [Hg _].
  assert (Hg0 : g <> 0).
  { rewrite Hg. intros E. apply Z.gcd_eq_0_l in E. lia. }
  destruct (Z.eqb_spec g 0) as [|_]; [contradiction|].
  rewrite <- Hg in Hdiv. apply Z.mod_divide in Hdiv; auto. rewrite Hdiv.
  cbn [Z.eqb negb]. unfold pymod.
  assert (Hl := lcm_pos Hm Hn).
  destruct (Z.eqb_spec (Z.lcm m n) 0) as [|_]; [lia|]. cbn [bind].
  eexists; split; [reflexivity|]. now apply Z.mod_pos_bound.
Qed.

Lemma crt_unsolvable (a b m n : Z) :
  0 < m -> 0 < n -> ~ (Z.gcd m n | b - a) ->
  exists msg, crt a b m n = Raise (ValueError msg).
Proof.
  intros Hm Hn Hdiv. unfold crt. pose proof (xgcd_spec m n) as H.
  destruct (xgcd m n) as [[g alpha] beta]. destruct H as [Hg _].
  assert (Hg0 : g <> 0).
  { rewrite Hg. intros E. apply Z.gcd_eq_0_l in E. lia. }
  destruct (Z.eqb_spec g 0) as [|_]; [contradiction|].
  destruct (Z.eqb_spec ((b - a) mod g) 0) as [E|_]; cbn [negb].
  - exfalso. apply Hdiv. rewrite <- Hg. now apply Z.mod_divide.
  - eexists; reflexivity.
Qed.

Lemma crt_congr (a a' b m n : Z) :
  0 < m -> 0 < n -> Z.gcd m n = 1 -> (m | a - a') ->
  crt a b m n = crt a' b m n.
Proof.
  intros Hm Hn Hcop Haa.
  destruct (@crt_returns a b m n) as (x & Ex & Hx); auto.
  destruct (@crt_returns a' b m n) as (x' & Ex' & Hx'); auto.
  rewrite Ex Ex'. f_equal.
  destruct (crt_sound Ex) as [Hxa Hxb]. destruct (crt_sound Ex') as [Hxa' Hxb'].
  assert (H1 : (m | x - x')).
  { replace (x - x') with ((x - a) - (x' - a') + (a - a')) by ring.
    apply Z.divide_add_r; auto. now apply Z.divide_sub_r. }
  assert (H2 : (n | x - x')).
  { replace (x - x') with ((x - b) - (x' - b)) by ring. now apply Z.divide_sub_r. }
  assert (H3 : (m * n | x - x')).
  { destruct H1 as [k Hk]. rewrite Hk in H2 |- *.
    rewrite Z.mul_comm in H2. apply Z.gauss in H2; [|now rewrite Z.gcd_comm].
    destruct H2 as [j ->]. exists j. ring. }
  destruct H3 as [k Hk].
  assert (Hmn : 0 < m * n) by nia.
  assert (k < 1) by nia. assert (-1 < k) by nia.
  assert (k = 0) by lia. subst k. lia.
Qed.

End EdgeFacts.

Module EdgeFacts2.
Import Arith ArithFacts Liftings LiftingsFacts RamifiedFacts LiftingsErrors EdgeFacts.
Local Open Scope Z_scope.

Lemma mod_eq_mod_divide (m x y : Z) : x mod m = y mod m -> (m | x - y).
Proof.
  intros E. destruct (Z.eq_dec m 0) as [->|Hm].
  - rewrite !Zmod_0_r in E. subst. exists 0. ring.
  - exists (x / m - y / m).
    pose proof (Z.div_mod x m Hm) as Hx. pose proof (Z.div_mod y m Hm) as Hy.
    rewrite E in Hx. nia.
Qed.

Lemma det_congr (a b c d a' b' c' d' m : Z) :
  (m | a - a') -> (m | b - b') -> (m | c - c') -> (m | d - d') ->
  (a * d - b * c) mod m = (a' * d' - b' * c') mod m.
Proof.
  intros [ka Ha] [kb Hb] [kc Hc] [kd Hd]. apply divide_mod_eq.
  replace a with (a' + ka * m) by lia. replace b with (b' + kb * m) by lia.
  replace c with (c' + kc * m) by lia. replace d with (d' + kd * m) by lia.
  exists (ka * d' + kd * a' + ka * kd * m - kb * c' - kc * b' - kb * kc * m). ring.
Qed.

Lemma lift_to_gamma1_congr (a b c d a' b' c' d' m n : Z) :
  0 < m -> 0 < n -> Z.gcd m n = 1 ->
  (m | a - a') -> (m | b - b') -> (m | c - c') -> (m | d - d') ->
  lift_to_gamma1 [a; b; c; d] m n = lift_to_gamma1 [a'; b'; c'; d'] m n.
Proof.
  intros Hm Hn Hcop Ha Hb Hc Hd. unfold lift_to_gamma1.
  destruct (Z.eqb_spec m 1) as [|_]; [reflexivity|].
  cbn [unpack4 bind]. unfold pymod.
  destruct (Z.eqb_spec m 0) as [|_]; [lia|]. cbn [bind].
  rewrite (det_congr Ha Hb Hc Hd).
  destruct (negb ((a' * d' - b' * c') mod m =? 1)); [reflexivity|].
  rewrite (@crt_congr c c' 0 m n Hm Hn Hcop Hc).
  rewrite (@crt_congr d d' 1 m n Hm Hn Hcop Hd).
  destruct (crt c' 0 m n) as [c2| |]; cbn [bind]; try reflexivity.
  destruct (crt d' 1 m n) as [d2| |]; cbn [bind]; try reflexivity.
  destruct (lift_to_sl2z c2 d2 (m * n)) as [l3| |] eqn:El3; cbn [bind];
    try reflexivity.
  destruct (lift_to_sl2z_sound El3) as (a3 & b3 & c3 & d3 & -> & _).
  cbn [unpack4 bind].
  assert (Hr : (a3 * b - b3 * a) mod m = (a3 * b' - b3 * a') mod m).
  { apply divide_mod_eq. destruct Ha as [ka Ha]. destruct Hb as [kb Hb].
    exists (a3 * kb - b3 * ka).
    replace a with (a' + ka * m) by lia. replace b with (b' + kb * m) by lia. ring. }
  now rewrite Hr.
Qed.

Lemma lift_to_gamma1_length (g l : list Z) (m n : Z) :
  lift_to_gamma1 g m n = Ok l -> m <> 1 ->
  exists a b c d, g = [a; b; c; d].
Proof.
  unfold lift_to_gamma1. destruct (Z.eqb_spec m 1) as [|_]; [contradiction|].
  destruct g as [|a [|b [|c [|d [|e g]]]]]; cbn [unpack4 bind]; try discriminate.
  intros _ _. now exists a, b, c, d.
Qed.

Lemma lift_to_gamma1_solvable (a b c d m n : Z) :
  2 <= m -> 0 < n -> (a * d - b * c) mod m = 1 ->
  (Z.gcd m n | c) -> (Z.gcd m n | d - 1) ->
  exists l, lift_to_gamma1 [a; b; c; d] m n = Ok l.
Proof.
  intros Hm Hn Hdet Hgc Hgd. unfold lift_to_gamma1.
  destruct (Z.eqb_spec m 1) as [|_]; [lia|].
  cbn [unpack4 bind]. unfold pymod.
  destruct (Z.eqb_spec m 0) as [|Hm0]; [lia|]. cbn [bind].
  rewrite Hdet. cbn [Z.eqb negb].
  destruct (@crt_solvable c 0 m n) as (c2 & Ec2 & Hc2); try lia.
  { replace (0 - c) with (- c) by ring. now apply Z.divide_opp_r. }
  destruct (@crt_solvable d 1 m n) as (d2 & Ed2 & Hd2); try lia.
  { replace (1 - d) with (- (d - 1)) by ring. now apply Z.divide_opp_r. }
  rewrite Ec2 Ed2. cbn [bind].
  destruct (crt_sound Ec2) as [Hc2m Hc2n].
  destruct (crt_sound Ed2) as [Hd2m Hd2n].
  destruct (@lift_to_sl2z_returns c2 d2 (m * n)) as [l3 El3]; try nia.
  { set (h := Z.gcd (Z.gcd c2 d2) (m * n)).
    assert (Hhc : (h | c2)).
    { eapply Z.divide_trans; [apply Z.gcd_divide_l|apply Z.gcd_divide_l]. }
    assert (Hhd : (h | d2)).
    { eapply Z.divide_trans; [apply Z.gcd_divide_l|apply Z.gcd_divide_r]. }
    assert (Hhmn : (h | m * n)) by apply Z.gcd_divide_r.
    assert (Hhn : Z.gcd h n = 1).
    { apply Z.divide_1_r_nonneg; [apply Z.gcd_nonneg|].
      assert (H1 : (Z.gcd h n | d2))
        by (eapply Z.divide_trans; [apply Z.gcd_divide_l|exact Hhd]).
      assert (H2 : (Z.gcd h n | d2 - 1))
        by (eapply Z.divide_trans; [apply Z.gcd_divide_r|exact Hd2n]).
      replace 1 with (d2 - (d2 - 1)) by ring. now apply Z.divide_sub_r. }
    assert (Hhm : (h | m)).
    { apply Z.gauss with n; [now rewrite Z.mul_comm|exact Hhn]. }
    assert (Hc' : (h | c)).
    { replace c with (c2 - (c2 - c)) by ring. apply Z.divide_sub_r; auto.
      now apply Z.divide_trans with m. }
    assert (Hd' : (h | d)).
    { replace d with (d2 - (d2 - d)) by ring. apply Z.divide_sub_r; auto.
      now apply Z.divide_trans with m. }
    apply Z.divide_1_r_nonneg; [apply Z.gcd_nonneg|]. fold h.
    assert (Hdd : (m | a * d - b * c - 1)) by (apply mod_eq_divide; auto).
    replace 1 with ((a * d - b * c) - (a * d - b * c - 1)) by ring.
    apply Z.divide_sub_r.
    - apply Z.divide_sub_r; [now apply Z.divide_mul_r|now apply Z.divide_mul_r].
    - now apply Z.divide_trans with m. }
  rewrite El3. cbn [bind].
  destruct (lift_to_sl2z_sound El3) as (a3 & b3 & c3 & d3 & -> & _).
  cbn [unpack4 bind]. eexists; reflexivity.
Qed.

Lemma lift_to_gamma1_unsolvable (a b c d m n : Z) :
  2 <= m -> 0 < n -> (a * d - b * c) mod m = 1 ->
  ~ ((Z.gcd m n | c) /\ (Z.gcd m n | d - 1)) ->
  exists msg, lift_to_gamma1 [a; b; c; d] m n = Raise (ValueError msg)
              /\ is_det_error (ValueError msg) = false.
Proof.
  intros Hm Hn Hdet Hno. unfold lift_to_gamma1.
  destruct (Z.eqb_spec m 1) as [|_]; [lia|].
  cbn [unpack4 bind]. unfold pymod.
  destruct (Z.eqb_spec m 0) as [|Hm0]; [lia|]. cbn [bind].
  rewrite Hdet. cbn [Z.eqb negb].
  assert (Hg0 : Z.gcd m n <> 0).
  { intros E. apply Z.gcd_eq_0_l in E. lia. }
  destruct (Z.eq_dec (c mod Z.gcd m n) 0) as [Ec|Ec].
  - apply Z.mod_divide in Ec; auto.
    destruct (@crt_solvable c 0 m n) as (c2 & Ec2 & _); try lia.
    { replace (0 - c) with (- c) by ring. now apply Z.divide_opp_r. }
    rewrite Ec2. cbn [bind].
    destruct (@crt_unsolvable d 1 m n) as [msg Emsg]; try lia.
    { intros H. apply Hno. split; auto.
      replace (d - 1) with (- (1 - d)) by ring. now apply Z.divide_opp_r. }
    rewrite Emsg. cbn [bind]. exists msg. split; [reflexivity|].
    now apply (@crt_raises d 1 m n).
  - destruct (@crt_unsolvable c 0 m n) as [msg Emsg]; try lia.
    { intros H. apply Ec. apply Z.mod_divide; auto.
      replace c with (- (0 - c)) by ring. now apply Z.divide_opp_r. }
    rewrite Emsg. cbn [bind]. exists msg. split; [reflexivity|].
    now apply (@crt_raises c 0 m n).
Qed.

Lemma inverse_mod_fails (a m : Z) :
  m <> 0 -> Z.gcd a m <> 1 ->
  exists msg, inverse_mod a m = Raise (ZeroDivisionError msg).
Proof.
  intros Hm Hg. unfold inverse_mod.
  destruct (Z.eqb_spec m 0) as [|_]; [contradiction|].
  pose proof (xgcd_spec a m) as H.
  destruct (xgcd a m) as [[g s] t]. destruct H as [Hgg _].
  destruct (Z.eqb_spec g 1) as [E|_]; [congruence|].
  eexists; reflexivity.
Qed.

Lemma inverse_mod_one (p : Z) : 2 <= p -> inverse_mod 1 p = Ok 1.
Proof.
  intros Hp. destruct (@inverse_mod_returns 1 p) as [ia E]; try lia.
  { apply Z.gcd_1_l. }
  rewrite E. f_equal.
  pose proof (inverse_mod_sound E) as [k Hk].
  revert E. unfold inverse_mod.
  destruct (Z.eqb_spec p 0) as [|_]; [lia|].
  destruct (xgcd 1 p) as [[g s] t].
  destruct (g =? 1); [|discriminate]. intros [= E].
  assert (Hr : 0 <= ia < p).
  { rewrite <- E. replace (Z.abs p) with p by lia. apply Z.mod_pos_bound. lia. }
  assert (Hk1 : k < 1).
  { apply Z.nle_gt. intros Hge.
    assert (p * 1 <= p * k) by (apply Z.mul_le_mono_nonneg_l; lia). lia. }
  assert (Hk0 : -1 < k).
  { apply Z.nle_gt. intros Hle.
    assert (p * k <= p * (-1)) by (apply Z.mul_le_mono_nonneg_l; lia). lia. }
  assert (k = 0) by lia. subst k. lia.
Qed.

(** The algebra of the correction of the bottom row in [lift_ramified]. *)
Lemma ramified_correction (c p u a1 c1 ia r : Z) :
  1 < p -> 1 <= u -> (p ^ u | c1 - c) -> (p | a1 * ia - 1) ->
  (p | r - (c1 - c) / p ^ u * ia) ->
  (p ^ (u + 1) | c1 - p ^ u * r * a1 - c).
Proof.
  intros Hp Hu Hc Hinv Hrp.
  replace (u + 1) with (Z.succ u) by lia. rewrite Z.pow_succ_r; try lia.
  assert (Hpu : p ^ u <> 0) by (apply Z.pow_nonzero; lia).
  assert (Hq : c1 - c = p ^ u * ((c1 - c) / p ^ u)).
  { apply Z_div_exact_full_2; auto. now apply Z.mod_divide. }
  set (q := (c1 - c) / p ^ u) in *.
  destruct Hinv as [k2 Hk2]. destruct Hrp as [k1 Hk1].
  exists (- (q * k2 + k1 * a1)).
  replace (c1 - p ^ u * r * a1 - c) with ((c1 - c) - p ^ u * r * a1) by ring.
  rewrite Hq. replace r with (q * ia + k1 * p) by lia.
  replace (p ^ u * q - p ^ u * (q * ia + k1 * p) * a1)
    with (p ^ u * (- q * (a1 * ia - 1) - k1 * p * a1)) by ring.
  rewrite Hk2. ring.
Qed.

End EdgeFacts2.

(** ** Further properties of the 2x2 family: edge cases and algebra *)

Module Edge2x2.
Import Arith ArithFacts Liftings LiftingsFacts RamifiedFacts LiftingsErrors.
Import EdgeFacts EdgeFacts2.
Local Open Scope Z_scope.

(** X4.  The base lift is a function of the residues of its input modulo
    [m]: for coprime positive moduli, two inputs that agree entrywise
    modulo [m] have the same outcome, the same lift or the same error. *)
Theorem lift_to_gamma1_depends_on_residues (a b c d a' b' c' d' m n : Z) :
  0 < m -> 0 < n -> Z.gcd m n = 1 ->
  a mod m = a' mod m -> b mod m = b' mod m ->
  c mod m = c' mod m -> d mod m = d' mod m ->
  lift_to_gamma1 [a; b; c; d] m n = lift_to_gamma1 [a'; b'; c'; d'] m n.
Proof.
  intros Hm Hn Hcop Ha Hb Hc Hd.
  apply lift_to_gamma1_congr; auto; now apply mod_eq_mod_divide.
Qed.

Lemma lift_to_gamma1_depends_on_residues_witness :
  lift_to_gamma1 [29; 30; 22; -8] 19 5 = lift_to_gamma1 [10; 11; 3; 11] 19 5.
Proof.
  apply (@lift_to_gamma1_depends_on_residues 29 30 22 (-8) 10 11 3 11 19 5);
    solve [lia | reflexivity].
Defined.

(** X5.  The base lift is idempotent: for coprime positive moduli, a list
    it returns is returned unchanged when it is lifted again. *)
Theorem lift_to_gamma1_idempotent (g l : list Z) (m n : Z) :
  0 < m -> 0 < n -> Z.gcd m n = 1 ->
  lift_to_gamma1 g m n = Ok l -> lift_to_gamma1 l m n = Ok l.
Proof.
  intros Hm Hn Hcop El. destruct (Z.eq_dec m 1) as [->|Hm1].
  - revert El. unfold lift_to_gamma1. cbn [Z.eqb Pos.eqb]. now intros [= <-].
  - destruct (lift_to_gamma1_length El Hm1) as (a & b & c & d & ->).
    destruct (lift_to_gamma1_sound El)
      as (a1 & b1 & c1 & d1 & -> & _ & (Ha & Hb & Hc & Hd) & _).
    rewrite <- El. now apply lift_to_gamma1_congr.
Qed.

Lemma lift_to_gamma1_idempotent_witness :
  lift_to_gamma1 [371; 68; 60; 11] 19 5 = Ok [371; 68; 60; 11].
Proof.
  apply (@lift_to_gamma1_idempotent [10; 11; 3; 11] [371; 68; 60; 11] 19 5);
    solve [lia | reflexivity].
Defined.

(** X6.  The moduli need not be coprime.  For [m >= 2], [n >= 1] and
    [a*d - b*c = 1 (mod m)], the base lift returns exactly when
    [gcd(m, n)] divides both [c] and [d - 1], and what it returns then has
    determinant 1, agrees with the input modulo [m] and is upper
    unitriangular modulo [n]; otherwise one of the two calls of [crt]
    raises a [ValueError], which is not the determinant error. *)
Theorem lift_to_gamma1_moduli_not_coprime (a b c d m n : Z) :
  2 <= m -> 0 < n -> (a * d - b * c) mod m = 1 ->
  ((Z.gcd m n | c) /\ (Z.gcd m n | d - 1) ->
   exists a' b' c' d',
     lift_to_gamma1 [a; b; c; d] m n = Ok [a'; b'; c'; d']
     /\ a' * d' - b' * c' = 1
     /\ (a' mod m = a mod m /\ b' mod m = b mod m
         /\ c' mod m = c mod m /\ d' mod m = d mod m)
     /\ (a' mod n = 1 mod n /\ c' mod n = 0 /\ d' mod n = 1 mod n))
  /\ (~ ((Z.gcd m n | c) /\ (Z.gcd m n | d - 1)) ->
      exists msg,
        lift_to_gamma1 [a; b; c; d] m n = Raise (ValueError msg)
        /\ is_det_error (ValueError msg) = false).
Proof.
  intros Hm Hn Hdet. split.
  - intros [Hgc Hgd].
    destruct (@lift_to_gamma1_solvable a b c d m n) as [l El]; auto.
    destruct (lift_to_gamma1_sound El)
      as (a1 & b1 & c1 & d1 & -> & Hdet1 & (Ha & Hb & Hc & Hd) & (Hna & Hnc & Hnd)).
    exists a1, b1, c1, d1. split; [exact El|]. split; [exact Hdet1|].
    split; [now repeat split; apply divide_mod_eq|].
    split; [now apply divide_mod_eq|]. split; [|now apply divide_mod_eq].
    apply Z.mod_divide; [lia|exact Hnc].
  - now apply lift_to_gamma1_unsolvable.
Qed.

Lemma lift_to_gamma1_moduli_not_coprime_witness :
  ((Z.gcd 4 6 | 2) /\ (Z.gcd 4 6 | 1 - 1) ->
   exists a' b' c' d',
     lift_to_gamma1 [1; 0; 2; 1] 4 6 = Ok [a'; b'; c'; d']
     /\ a' * d' - b' * c' = 1
     /\ (a' mod 4 = 1 mod 4 /\ b' mod 4 = 0 mod 4
         /\ c' mod 4 = 2 mod 4 /\ d' mod 4 = 1 mod 4)
     /\ (a' mod 6 = 1 mod 6 /\ c' mod 6 = 0 /\ d' mod 6 = 1 mod 6))
  /\ (~ ((Z.gcd 4 6 | 2) /\ (Z.gcd 4 6 | 1 - 1)) ->
      exists msg,
        lift_to_gamma1 [1; 0; 2; 1] 4 6 = Raise (ValueError msg)
        /\ is_det_error (ValueError msg) = false).
Proof.
  apply (@lift_to_gamma1_moduli_not_coprime 1 0 2 1 4 6);
    solve [lia | reflexivity].
Defined.

(** X7.  The generator lift: for coprime moduli [m >= 1] and [n >= 1],
    [lift_gen_to_gamma1 m n] returns four integers of determinant exactly
    1 that are [(0, -1, 1, 0)] modulo [m] and upper unitriangular modulo
    [n]; the determinant check never fails for it. *)
Theorem lift_gen_to_gamma1_contract (m n : Z) :
  1 <= m -> 0 < n -> Z.gcd m n = 1 ->
  exists a b c d,
    lift_gen_to_gamma1 m n = Ok [a; b; c; d]
    /\ a * d - b * c = 1
    /\ (a mod m = 0 /\ b mod m = (- 1) mod m /\ c mod m = 1 mod m /\ d mod m = 0)
    /\ (a mod n = 1 mod n /\ c mod n = 0 /\ d mod n = 1 mod n).
Proof.
  intros Hm Hn Hcop. unfold lift_gen_to_gamma1.
  assert (Hret : exists l, lift_to_gamma1 [0; -1; 1; 0] m n = Ok l).
  { destruct (Z.eq_dec m 1) as [->|Hm1]; [now eexists|].
    apply lift_to_gamma1_returns; try lia.
    replace (0 * 0 - -1 * 1) with 1 by ring. apply Z.mod_1_l. lia. }
  destruct Hret as [l El].
  destruct (lift_to_gamma1_sound El)
    as (a1 & b1 & c1 & d1 & -> & Hdet1 & (Ha & Hb & Hc & Hd) & (Hna & Hnc & Hnd)).
  exists a1, b1, c1, d1. split; [exact El|]. split; [exact Hdet1|].
  rewrite Z.sub_0_r in Ha. rewrite Z.sub_0_r in Hd.
  split; [repeat split|split; [|split]].
  - apply Z.mod_divide; [lia|exact Ha].
  - now apply divide_mod_eq.
  - now apply divide_mod_eq.
  - apply Z.mod_divide; [lia|exact Hd].
  - now apply divide_mod_eq.
  - apply Z.mod_divide; [lia|exact Hnc].
  - now apply divide_mod_eq.
Qed.

Lemma lift_gen_to_gamma1_contract_witness :
  exists a b c d,
    lift_gen_to_gamma1 9 8 = Ok [a; b; c; d]
    /\ a * d - b * c = 1
    /\ (a mod 9 = 0 /\ b mod 9 = (- 1) mod 9 /\ c mod 9 = 1 mod 9 /\ d mod 9 = 0)
    /\ (a mod 8 = 1 mod 8 /\ c mod 8 = 0 /\ d mod 8 = 1 mod 8).
Proof.
  apply (@lift_gen_to_gamma1_contract 9 8); solve [lia | reflexivity].
Defined.

(** X8.  The ramified lift needs [a] to be a unit modulo [p], not [c] to
    be a multiple of [p].  For a prime [p], [u >= 1], [n >= 1] coprime to
    [p] and [a*d - b*c = 1 (mod p^u)]: when [p] divides [a] the call of
    [inverse_mod] raises [ZeroDivisionError]; when it does not, the lift
    returns integers of determinant exactly 1 that agree with the input
    modulo [p^u], with [c' = c] modulo [p^(u+1)], upper unitriangular
    modulo [n]. *)
Theorem lift_ramified_outcome (a b c d p u n : Z) :
  Z.prime p -> 1 <= u -> 0 < n -> Z.gcd p n = 1 ->
  (a * d - b * c) mod p ^ u = 1 ->
  ((p | a) ->
   exists msg, lift_ramified [a; b; c; d] p u n = Raise (ZeroDivisionError msg))
  /\ (~ (p | a) ->
      exists a' b' c' d',
        lift_ramified [a; b; c; d] p u n = Ok [a'; b'; c'; d']
        /\ a' * d' - b' * c' = 1
        /\ (a' mod p ^ u = a mod p ^ u /\ b' mod p ^ u = b mod p ^ u
            /\ c' mod p ^ u = c mod p ^ u /\ d' mod p ^ u = d mod p ^ u)
        /\ c' mod p ^ (u + 1) = c mod p ^ (u + 1)
        /\ (a' mod n = 1 mod n /\ c' mod n = 0 /\ d' mod n = 1 mod n)).
Proof.
  intros Hprime Hu Hn Hcop Hdet.
  assert (Hp : 1 < p) by (pose proof (Z.prime_ge_2 _ Hprime); lia).
  destruct (@prime_power_modulus p u n Hp Hu Hcop) as (Hm & Hpm & _ & Hcopm).
  destruct (@lift_to_gamma1_returns a b c d (p ^ u) n Hm Hn Hcopm Hdet) as [l El].
  destruct (lift_to_gamma1_sound El)
    as (a1 & b1 & c1 & d1 & -> & Hdet1 & (Ha & Hb & Hc & Hd) & (Hna & Hnc & Hnd)).
  assert (Hpa : (p | a1 - a)) by (now apply Z.divide_trans with (p ^ u)).
  split.
  - intros Hdiv.
    assert (Hpa1 : (p | a1)).
    { replace a1 with ((a1 - a) + a) by ring. now apply Z.divide_add_r. }
    destruct (@inverse_mod_fails a1 p) as [msg Emsg]; try lia.
    { intros Hg. assert (H1 : (p | 1)).
      { rewrite <- Hg. apply Z.gcd_greatest; [exact Hpa1|apply Z.divide_refl]. }
      apply Z.divide_1_r_nonneg in H1; lia. }
    exists msg. unfold lift_ramified. rewrite El.
    cbn [bind unpack4 getitem nth_error]. now rewrite Emsg.
  - intros Hndiv.
    assert (Hgcd : Z.gcd a1 p = 1).
    { rewrite Z.gcd_comm. apply Z.coprime_prime_l; auto.
      intros Hpa1. apply Hndiv.
      replace a with (a1 - (a1 - a)) by ring. now apply Z.divide_sub_r. }
    destruct (@inverse_mod_returns a1 p) as [ia Eia]; auto; try lia.
    pose proof (inverse_mod_sound Eia) as Hia.
    destruct (@crt_returns ((c1 - c) / p ^ u * ia) 0 p n) as (r & Er & _);
      auto; try lia.
    destruct (crt_sound Er) as [Hrp Hrn]. rewrite Z.sub_0_r in Hrn.
    exists a1, b1, (c1 - p ^ u * r * a1), (d1 - p ^ u * r * b1).
    split.
    { unfold lift_ramified. rewrite El. cbn [bind unpack4 getitem nth_error].
      rewrite Eia. cbn [bind]. now rewrite Er. }
    split; [rewrite <- Hdet1; ring|].
    split; [split; [|split; [|split]]|split; [|split; [|split]]];
      try (now apply divide_mod_eq).
    + apply divide_mod_eq.
      replace (c1 - p ^ u * r * a1 - c) with ((c1 - c) - p ^ u * (r * a1)) by ring.
      apply Z.divide_sub_r; auto. now apply Z.divide_mul_l, Z.divide_refl.
    + apply divide_mod_eq.
      replace (d1 - p ^ u * r * b1 - d) with ((d1 - d) - p ^ u * (r * b1)) by ring.
      apply Z.divide_sub_r; auto. now apply Z.divide_mul_l, Z.divide_refl.
    + apply divide_mod_eq. now apply ramified_correction with ia.
    + apply Z.mod_divide; [lia|]. apply Z.divide_sub_r; auto.
      replace (p ^ u * r * a1) with (r * (p ^ u * a1)) by ring.
      now apply Z.divide_mul_l.
    + apply divide_mod_eq.
      replace (d1 - p ^ u * r * b1 - 1) with ((d1 - 1) - r * (p ^ u * b1)) by ring.
      apply Z.divide_sub_r; auto. now apply Z.divide_mul_l.
Qed.

Lemma lift_ramified_outcome_witness :
  ((3 | 1) ->
   exists msg, lift_ramified [1; 1; 1; 2] 3 2 5 = Raise (ZeroDivisionError msg))
  /\ (~ (3 | 1) ->
      exists a' b' c' d',
        lift_ramified [1; 1; 1; 2] 3 2 5 = Ok [a'; b'; c'; d']
        /\ a' * d' - b' * c' = 1
        /\ (a' mod 3 ^ 2 = 1 mod 3 ^ 2 /\ b' mod 3 ^ 2 = 1 mod 3 ^ 2
            /\ c' mod 3 ^ 2 = 1 mod 3 ^ 2 /\ d' mod 3 ^ 2 = 2 mod 3 ^ 2)
        /\ c' mod 3 ^ (2 + 1) = 1 mod 3 ^ (2 + 1)
        /\ (a' mod 5 = 1 mod 5 /\ c' mod 5 = 0 /\ d' mod 5 = 1 mod 5)).
Proof.
  apply (@lift_ramified_outcome 1 1 1 2 3 2 5);
    solve [exact Z.prime_3 | lia | reflexivity].
Defined.

(** X9.  Exponent 0.  With [u = 0] the base lift is called with modulus
    1 and returns the identity without looking at [g], so no determinant
    is checked and only [g[2]] is read: for [p >= 2] and [n >= 1] coprime
    to [p], the result is [[1, 0, c', 1]] with [c' = g[2]] modulo [p] and
    [c' = 0] modulo [n]. *)
Theorem lift_ramified_exponent_zero (g : list Z) (c p n : Z) :
  2 <= p -> 0 < n -> Z.gcd p n = 1 -> nth_error g 2 = Some c ->
  exists c',
    lift_ramified g p 0 n = Ok [1; 0; c'; 1]
    /\ c' mod p = c mod p /\ c' mod n = 0.
Proof.
  intros Hp Hn Hcop Hg. unfold lift_ramified.
  rewrite Z.pow_0_r. unfold lift_to_gamma1 at 1. cbn [Z.eqb Pos.eqb bind unpack4].
  unfold getitem. rewrite Hg. cbn [bind]. rewrite (inverse_mod_one Hp). cbn [bind].
  destruct (@crt_returns ((0 - c) / 1 * 1) 0 p n) as (r & Er & _); auto; try lia.
  rewrite Er. cbn [bind].
  destruct (crt_sound Er) as [[k Hk] Hrn]. rewrite Z.sub_0_r in Hrn.
  rewrite Z.div_1_r in Hk.
  exists (0 - 1 * r * 1). split; [do 5 f_equal; ring|]. split.
  - apply divide_mod_eq. exists (- k). lia.
  - apply Z.mod_divide; [lia|]. replace (0 - 1 * r * 1) with (- r) by ring.
    now apply Z.divide_opp_r.
Qed.

Lemma lift_ramified_exponent_zero_witness :
  exists c',
    lift_ramified [7; 7; 4] 3 0 5 = Ok [1; 0; c'; 1]
    /\ c' mod 3 = 4 mod 3 /\ c' mod 5 = 0.
Proof.
  apply (@lift_ramified_exponent_zero [7; 7; 4] 4 3 5); solve [lia | reflexivity].
Defined.

(** X10.  Malformed arguments of the base lift, for [m <> 1]: a list that
    does not have exactly four entries fails to unpack with a
    [ValueError] that is not the determinant error, and modulus 0 raises
    [ZeroDivisionError] when the determinant is reduced. *)
Theorem lift_to_gamma1_malformed_input (g : list Z) (m n : Z) :
  m <> 1 ->
  (List.length g <> 4%nat ->
   exists msg, lift_to_gamma1 g m n = Raise (ValueError msg)
               /\ is_det_error (ValueError msg) = false)
  /\ (List.length g = 4%nat -> m = 0 ->
      lift_to_gamma1 g m n = Raise (ZeroDivisionError "Integer modulo by zero")).
Proof.
  intros Hm1. unfold lift_to_gamma1.
  destruct (Z.eqb_spec m 1) as [|_]; [contradiction|].
  destruct g as [|a [|b [|c [|d [|e g]]]]]; cbn [List.length unpack4 bind];
    (split; [intros Hlen|intros Hlen Hm0]); try discriminate; try contradiction;
    try (eexists; split; reflexivity).
  now subst m.
Qed.

Lemma lift_to_gamma1_malformed_input_witness :
  (List.length [1; 2; 3] <> 4%nat ->
   exists msg, lift_to_gamma1 [1; 2; 3] 5 3 = Raise (ValueError msg)
               /\ is_det_error (ValueError msg) = false)
  /\ (List.length [1; 2; 3] = 4%nat -> 5 = 0 ->
      lift_to_gamma1 [1; 2; 3] 5 3 = Raise (ZeroDivisionError "Integer modulo by zero")).
Proof.
  apply (@lift_to_gamma1_malformed_input [1; 2; 3] 5 3). lia.
Defined.

End Edge2x2.

(** ** Facts about the abstract convex sets *)

Module ConvexSetFacts.
Import ConvexSet.
Local Open Scope Z_scope.
Local Open Scope cs_scope.

Lemma object_eqb_refl (x : object) : object_eqb x x = true.
Proof.
  destruct x as [k od ab am]. unfold object_eqb. cbn.
  assert (Hk : class_eqb k k = true) by (now destruct k).
  assert (Hd : option_eqb Z.eqb od od = true)
    by (destruct od; cbn; [apply Z.eqb_refl|reflexivity]).
  assert (Hb : option_eqb Nat.eqb ab ab = true)
    by (destruct ab; cbn; [apply Nat.eqb_refl|reflexivity]).
  assert (Ha : option_eqb Z.eqb am am = true)
    by (destruct am; cbn; [apply Z.eqb_refl|reflexivity]).
  now rewrite Hk Hd Hb Ha.
Qed.

Ltac unfold_methods :=
  unfold _test_convex_set, closure, interior, relative_interior,
    is_compact, Base_is_compact, Compact_is_compact,
    is_closed, Base_is_closed, Closed_is_closed, Open_is_closed,
    is_relatively_open, Base_is_relatively_open, RelativelyOpen_is_relatively_open,
    is_open, Base_is_open, Closed_is_open, RelativelyOpen_is_open, Open_is_open,
    is_universe, Base_is_universe, Compact_is_universe,
    is_full_dimensional, codim, codimension, is_empty, or_else.

Ltac split_tests :=
  repeat match goal with
  | |- context [?a <? ?b] => destruct (Z.ltb_spec a b)
  | |- context [?a <=? ?b] => destruct (Z.leb_spec a b)
  | |- context [?a =? ?b] => destruct (Z.eqb_spec a b)
  end.

Ltac run self Hk Hd Hn :=
  unfold_methods; rewrite ?Hk ?Hd ?Hn; cbn [andThen];
  split_tests;
  cbn [andThen negb when assertTrue or_None option_eqb andb orb];
  rewrite ?object_eqb_refl;
  cbn [andThen negb when assertTrue or_None option_eqb andb orb];
  try lia; try reflexivity; try discriminate.

(** X14.  The defaults of [ConvexSet_base] only ever say yes: on an
    instance that supplies no more than [dim] and the ambient space,
    [is_open], [is_relatively_open], [is_closed] and [is_compact] return
    [True] or raise [NotImplementedError], never [False]; [is_universe]
    returns [False] or raises, never [True]; and [is_relatively_open] has
    the outcome of [is_open], so that its test [dim() == 0] is never
    reached. *)
Theorem base_defaults_only_affirm (self : object) :
  class_of self = ConvexSet_base ->
  is_open self <> Return false /\ is_relatively_open self <> Return false
  /\ is_closed self <> Return false /\ is_compact self <> Return false
  /\ is_universe self <> Return true
  /\ is_relatively_open self = is_open self.
Proof.
  intros Hk.
  destruct (dim self) as [d|e] eqn:Hd; destruct (ambient_dim self) as [n|e'] eqn:Hn;
    repeat split; run self Hk Hd Hn.
Qed.

Lemma base_defaults_only_affirm_witness :
  is_open (Object ConvexSet_base (Some 0) None (Some 2)) <> Return false /\ is_relatively_open (Object ConvexSet_base (Some 0) None (Some 2)) <> Return false
  /\ is_closed (Object ConvexSet_base (Some 0) None (Some 2)) <> Return false /\ is_compact (Object ConvexSet_base (Some 0) None (Some 2)) <> Return false
  /\ is_universe (Object ConvexSet_base (Some 0) None (Some 2)) <> Return true
  /\ is_relatively_open (Object ConvexSet_base (Some 0) None (Some 2)) = is_open (Object ConvexSet_base (Some 0) None (Some 2)).
Proof.
  exact (@base_defaults_only_affirm (Object ConvexSet_base (Some 0) None (Some 2))
           (erefl _)).
Defined.



(** X16.  A point in a space of positive dimension.  [ConvexSet_compact]
    binds [is_relatively_open] to [ConvexSet_closed.is_open]; on a compact
    set of dimension 0 in an ambient space of dimension [n > 0] it returns
    [False], where the body of [ConvexSet_base.is_relatively_open], which
    the binding replaces, returns [True] on the same object. *)
Theorem compact_point_relatively_open (self : object) (n : Z) :
  class_of self = ConvexSet_compact ->
  dim self = Return 0 -> ambient_dim self = Return n -> 0 < n ->
  is_relatively_open self = Return false
  /\ Base_is_relatively_open self = Return true.
Proof.
  intros Hk Hd Hn Hpos. split; run self Hk Hd Hn.
Qed.

Lemma compact_point_relatively_open_witness :
  is_relatively_open (Object ConvexSet_compact None (Some 1%nat) (Some 3)) = Return false
  /\ Base_is_relatively_open (Object ConvexSet_compact None (Some 1%nat) (Some 3)) = Return true.
Proof.
  apply (@compact_point_relatively_open
           (Object ConvexSet_compact None (Some 1%nat) (Some 3)) 3);
    solve [reflexivity | lia].
Defined.

(** X17.  The defaults of [ConvexSet_compact] pass the module's own
    consistency test: on an instance of dimension [d] in an ambient
    space of dimension [n], [_test_convex_set] passes when
    [-1 <= d <= n] and fails an assertion otherwise; it never runs the
    test suite of another object. *)
Theorem compact_test_convex_set (self : object) (d n : Z)
    (TestSuite_run : object -> outcome unit) :
  class_of self = ConvexSet_compact ->
  dim self = Return d -> ambient_dim self = Return n ->
  _test_convex_set self TestSuite_run
  = if (-1 <=? d) && (d <=? n) then Return tt else Throw AssertionError.
Proof.
  intros Hk Hd Hn. run self Hk Hd Hn.
Qed.

Lemma compact_test_convex_set_witness :
  _test_convex_set (Object ConvexSet_compact (Some 2) None (Some 3))
    (fun _ => Throw AssertionError)
  = if (-1 <=? 2) && (2 <=? 3) then Return tt else Throw AssertionError.
Proof.
  exact (@compact_test_convex_set (Object ConvexSet_compact (Some 2) None (Some 3))
           2 3 (fun _ => Throw AssertionError) (erefl _) (erefl _) (erefl _)).
Defined.

(** X18.  The defaults never contradict one another.  On an instance of
    any of the five classes, of dimension [d] in an ambient space of
    dimension [n], [_test_convex_set] fails an assertion exactly when the
    dimensions are inadmissible, that is unless [-1 <= d <= n]; with
    admissible dimensions it passes or stops at a
    [NotImplementedError]. *)
Theorem test_convex_set_assertions (self : object) (d n : Z)
    (TestSuite_run : object -> outcome unit) :
  dim self = Return d -> ambient_dim self = Return n ->
  (_test_convex_set self TestSuite_run = Throw AssertionError
   <-> ~ (-1 <= d <= n))
  /\ (-1 <= d <= n ->
      _test_convex_set self TestSuite_run = Return tt
      \/ _test_convex_set self TestSuite_run = Throw NotImplementedError).
Proof.
  intros Hd Hn. destruct (class_of self) eqn:Hk;
    (split; [split; [intros H; revert H|intros H]|intros H]);
    run self Hk Hd Hn; auto.
Qed.

Lemma test_convex_set_assertions_witness :
  (_test_convex_set (Object ConvexSet_open (Some 100000) None (Some 3)) (fun _ => Return tt) = Throw AssertionError
   <-> ~ (-1 <= 100000 <= 3))
  /\ (-1 <= 100000 <= 3 ->
      _test_convex_set (Object ConvexSet_open (Some 100000) None (Some 3)) (fun _ => Return tt) = Return tt
      \/ _test_convex_set (Object ConvexSet_open (Some 100000) None (Some 3)) (fun _ => Return tt) = Throw NotImplementedError).
Proof.
  exact (@test_convex_set_assertions
           (Object ConvexSet_open (Some 100000) None (Some 3)) 100000 3
           (fun _ => Return tt) (erefl _) (erefl _)).
Defined.

(** X19.  Where a subclass has to supply [is_universe].  On a
    [ConvexSet_closed] that is not compact, [is_open], and on a
    [ConvexSet_open], [is_closed], return [True] for the empty set and
    [False] for a set that is neither empty nor full-dimensional, and raise
    [NotImplementedError] for a full-dimensional set that is not empty. *)
Theorem open_and_closed_needs_is_universe (self : object) (d n : Z) :
  dim self = Return d -> ambient_dim self = Return n ->
  (class_of self = ConvexSet_closed ->
   is_open self = if d <? 0 then Return true
                  else if d =? n then Throw NotImplementedError
                  else Return false)
  /\ (class_of self = ConvexSet_open ->
      is_closed self = if d <? 0 then Return true
                       else if d =? n then Throw NotImplementedError
                       else Return false).
Proof.
  intros Hd Hn. split; intros Hk; run self Hk Hd Hn.
Qed.

Lemma open_and_closed_needs_is_universe_witness :
  (class_of (Object ConvexSet_open (Some 3) None (Some 3)) = ConvexSet_closed ->
   is_open (Object ConvexSet_open (Some 3) None (Some 3))
   = if 3 <? 0 then Return true
     else if 3 =? 3 then Throw NotImplementedError
     else Return false)
  /\ (class_of (Object ConvexSet_open (Some 3) None (Some 3)) = ConvexSet_open ->
      is_closed (Object ConvexSet_open (Some 3) None (Some 3))
      = if 3 <? 0 then Return true
        else if 3 =? 3 then Throw NotImplementedError
        else Return false).
Proof.
  exact (@open_and_closed_needs_is_universe
           (Object ConvexSet_open (Some 3) None (Some 3)) 3 3 (erefl _) (erefl _)).
Defined.

End ConvexSetFacts.

From mathcomp Require Import ring.

Module MatrixFacts.
Import GRing.Theory GeneralLift.
Local Open Scope ring_scope.

Lemma mx_setE n (A : 'M[int]_n) i j v k l :
  mx_set A i j v k l = if (k == i) && (l == j) then v else A k l.
Proof. by rewrite mxE. Qed.

Lemma mx_congr_refl N n (A : 'M[int]_n) : mx_congr N A A.
Proof. by move=> i j; rewrite subrr dvdz0. Qed.

Lemma mx_congr_sym N n (A B : 'M[int]_n) : mx_congr N A B -> mx_congr N B A.
Proof. by move=> AB i j; rewrite -opprB rpredN. Qed.

Lemma mx_congr_trans N n (B A C : 'M[int]_n) :
  mx_congr N A B -> mx_congr N B C -> mx_congr N A C.
Proof.
move=> AB BC i j.
have -> : A i j - C i j = (A i j - B i j) + (B i j - C i j).
  by rewrite addrA subrK.
by rewrite rpredD.
Qed.


Lemma mx_congr_mul N n (A A' B B' : 'M[int]_n) :
  mx_congr N A A' -> mx_congr N B B' -> mx_congr N (A *m B) (A' *m B').
Proof.
move=> AA BB i j; rewrite !mxE -sumrB rpred_sum // => k _.
have -> : A i k * B k j - A' i k * B' k j
          = (A i k - A' i k) * B k j + A' i k * (B k j - B' k j).
  by rewrite mulrBl mulrBr addrA subrK.
by apply: rpredD; [apply: dvdz_mulr; exact: AA | apply: dvdz_mull; exact: BB].
Qed.

Lemma mx_congr_mull N n (M A B : 'M[int]_n) :
  mx_congr N A B -> mx_congr N (M *m A) (M *m B).
Proof. by move=> AB; apply: mx_congr_mul => //; apply: mx_congr_refl. Qed.

Lemma mx_congr_mulr N n (M A B : 'M[int]_n) :
  mx_congr N A B -> mx_congr N (A *m M) (B *m M).
Proof. by move=> AB; apply: mx_congr_mul => //; apply: mx_congr_refl. Qed.


(** *** Indices: [ord0] and [lift ord0 _] *)

Lemma lshift_ord0 n : lshift n (ord0 : 'I_1) = (ord0 : 'I_n.+1).
Proof. exact: val_inj. Qed.

Lemma rshift_lift n (i : 'I_n) : rshift 1 i = lift ord0 i :> 'I_n.+1.
Proof. exact: val_inj. Qed.

Lemma lift_lift_eq n (i j : 'I_n) :
  (lift ord0 i == lift ord0 j :> 'I_n.+1) = (i == j).
Proof. exact: (inj_eq (@lift_inj _ ord0)). Qed.

Definition ordE := (eqxx, lift_eqF, eq_liftF, lift_lift_eq, andbF, andbT,
                    andFb, andTb).

Section BlockEntries.

Variables (n : nat) (Aul : 'M[int]_1) (Aur : 'M[int]_(1, n)).
Variables (Adl : 'M[int]_(n, 1)) (Adr : 'M[int]_n).

Let B : 'M[int]_n.+1 := block_mx Aul Aur Adl Adr.

Lemma block_mx00 : B ord0 ord0 = Aul ord0 ord0.
Proof. rewrite -(lshift_ord0 n); exact: block_mxEul. Qed.

Lemma block_mx0l j : B ord0 (lift ord0 j) = Aur ord0 j.
Proof. rewrite -rshift_lift -(lshift_ord0 n); exact: block_mxEur. Qed.

Lemma block_mxl0 i : B (lift ord0 i) ord0 = Adl i ord0.
Proof. rewrite -rshift_lift -(lshift_ord0 n); exact: block_mxEdl. Qed.

Lemma block_mxll i j : B (lift ord0 i) (lift ord0 j) = Adr i j.
Proof. rewrite -!rshift_lift; exact: block_mxEdr. Qed.

End BlockEntries.

Definition blockE := (block_mx00, block_mx0l, block_mxl0, block_mxll).

End MatrixFacts.

Module LiftFacts.
Import GRing.Theory GeneralLift MatrixFacts.
Local Open Scope ring_scope.

Section Shapes.

Variable n : nat.

Lemma W_block b :
  W_mx n b = block_mx (b%:M : 'M_1) (delta_mx ord0 ord0)
             ((b - 1) *: delta_mx ord0 ord0) 1%:M.
Proof.
apply/matrixP => i j.
case: (unliftP ord0 i) => [i'|] ->; case: (unliftP ord0 j) => [j'|] ->;
  rewrite !blockE !mx_setE /ord_1 !ordE !mxE ?ordE //.
- by case: (i' == ord0); rewrite ?mulr1 ?mulr0.
- by case: (j' == ord0).
Qed.

Lemma X_block c :
  X_mx n c = block_mx (1%:M : 'M_1) (c *: delta_mx ord0 ord0) 0 1%:M.
Proof.
apply/matrixP => i j.
case: (unliftP ord0 i) => [i'|] ->; case: (unliftP ord0 j) => [j'|] ->;
  rewrite !blockE !mx_setE /ord_1 !ordE !mxE ?ordE //.
by case: (j' == ord0); rewrite ?mulr1 ?mulr0.
Qed.

Lemma Cpp_block a0 (C : 'M[int]_n.+1) :
  Cpp_mx a0 C = block_mx (1%:M : 'M_1) 0 ((1 - a0) *: delta_mx ord0 ord0) C.
Proof.
apply/matrixP => i j.
case: (unliftP ord0 i) => [i'|] ->; case: (unliftP ord0 j) => [j'|] ->;
  rewrite !blockE !mx_setE /ord_1 !ordE ?blockE ?mxE ?ordE //.
by case: (i' == ord0); rewrite ?mulr1 ?mulr0.
Qed.

Lemma det_X c : \det (X_mx n c) = 1.
Proof. by rewrite X_block (@det_ublock _ 1 n.+1) !det1 mulr1. Qed.

Lemma det_Cpp a0 (C : 'M[int]_n.+1) : \det (Cpp_mx a0 C) = \det C.
Proof. by rewrite Cpp_block (@det_lblock _ 1 n.+1) det1 mul1r. Qed.

Lemma det_W b : \det (W_mx n b) = 1.
Proof.
rewrite W_block.
have -> : block_mx (b%:M : 'M_1) (delta_mx ord0 ord0)
            ((b - 1) *: delta_mx ord0 ord0) (1%:M : 'M[int]_n.+1)
          = block_mx (1%:M : 'M_1) (delta_mx ord0 ord0) 0 1%:M
            *m block_mx (1%:M : 'M_1) 0 ((b - 1) *: delta_mx ord0 ord0) 1%:M.
  rewrite mulmx_block ?(mul1mx, mulmx1, mul0mx, mulmx0, addr0, add0r).
  congr (block_mx _ _ _ _).
  apply/matrixP => i j; rewrite !ord1 !mxE (bigD1 ord0) //= big1 => [k /negPf nk|].
    by rewrite !mxE nk /= mul0r.
  by rewrite !mxE !eqxx /= mulr1 mul1r addr0 addrC subrK.
by rewrite det_mulmx (@det_ublock _ 1 n.+1) (@det_lblock _ 1 n.+1) !det1 !mulr1.
Qed.



Lemma mulmx_delta_entry (M : 'M[int]_n.+2) (k l i j : 'I_n.+2) :
  (M *m delta_mx k l) i j = M i k * (j == l)%:R.
Proof.
rewrite mxE (bigD1 k) //= big1 => [k' /negPf nk|].
  by rewrite mxE nk /= mulr0.
by rewrite mxE eqxx /= addr0.
Qed.

Lemma X_delta c : X_mx n c = 1%:M + c *: delta_mx ord0 ord_1.
Proof.
apply/matrixP => i j; rewrite mx_setE !mxE.
case: (eqVneq i ord0) => [->|ni]; case: (eqVneq j ord_1) => [->|nj] /=;
  rewrite ?mulr1 ?mulr0 ?addr0 ?andbF ?add0r //.
Qed.

Lemma mulmx_X_entry (M : 'M[int]_n.+2) c i j :
  (M *m X_mx n c) i j = M i j + c * M i ord0 * (j == ord_1)%:R.
Proof.
by rewrite X_delta mulmxDr mulmx1 -scalemxAr mxE [X in _ + X]mxE mulmx_delta_entry mulrA.
Qed.

Lemma W_entry b i j :
  W_mx n b i j = if (i == ord0) && (j == ord_1) then 1
               else if (i == ord_1) && (j == ord0) then b - 1
               else if (i == ord0) && (j == ord0) then b
               else (i == j)%:R.
Proof. by rewrite !mx_setE mxE. Qed.


Lemma Cpp_entry a0 (C : 'M[int]_n.+1) i j :
  Cpp_mx a0 C i j =
    match unlift ord0 i, unlift ord0 j with
    | None, None => 1
    | None, Some _ => 0
    | Some i', None => (1 - a0) * (i' == ord0)%:R
    | Some i', Some j' => C i' j'
    end.
Proof.
rewrite Cpp_block.
case: (unliftP ord0 i) => [i'|] ->; case: (unliftP ord0 j) => [j'|] ->;
  by rewrite !blockE ?mxE ?ordE.
Qed.

Lemma mulmx_diag_entry (M : 'M[int]_n.+2) (d : 'rV[int]_n.+2) i j :
  (M *m diag_mx d) i j = M i j * d ord0 j.
Proof. by rewrite mul_mx_diag mxE. Qed.

Lemma WDX_congr (N : int) (a : 'I_n.+2 -> int) (b : int) :
  (N %| a ord0 * b - 1)%Z ->
  mx_congr N (W_mx n b *m diag_mx (\row_i a i) *m X_mx n (- a ord_1))
             (Cpp_mx (a ord0) (Cp_mx a)).
Proof.
move=> Hb i j.
rewrite mulmx_X_entry !mulmx_diag_entry Cpp_entry !W_entry !mxE /Cp_mx.
have D0 (x : int) : x = 0 -> (N %| x)%Z by move=> ->; exact: dvdz0.
have D1 (c x : int) : x = c * (a ord0 * b - 1) -> (N %| x)%Z.
  by move=> ->; apply: dvdz_mull.
have fin (x : int) : x = 0 \/ x = a ord0 * b - 1
             \/ x = - a (lift ord0 ord0) * (a ord0 * b - 1) -> (N %| x)%Z.
  by case=> [->|[->|->]]; [apply: D0 | apply: (D1 1); rewrite mul1r | apply: D1].
case: (unliftP ord0 i) => [i'|] ->; case: (unliftP ord0 j) => [j'|] ->;
  rewrite /ord_1 ?ordE /= ?mx_setE ?mxE ?ordE.
- case: (eqVneq i' ord0) => [->|ni]; case: (eqVneq j' ord0) => [->|nj];
    rewrite ?eqxx /= ?mulr1n ?mulr0n.
  + by apply: fin; right; right; ring.
  + by apply: fin; left; ring.
  + by rewrite (negPf ni) /= mulr0n; apply: fin; left; ring.
  + by case: (eqVneq i' j') => [->|_]; rewrite /= ?mulr1n ?mulr0n; apply: fin;
      left; ring.
- case: (eqVneq i' ord0) => [_|_]; rewrite /= ?mulr1n ?mulr0n.
  + by apply: fin; right; left; ring.
  + by apply: fin; left; ring.
- case: (eqVneq j' ord0) => [->|_]; rewrite /= ?mulr1n ?mulr0n.
  + by apply: fin; right; right; ring.
  + by apply: fin; left; ring.
- by apply: fin; right; left; ring.
Qed.


Lemma Cpp_congr N a0 (C C' : 'M[int]_n.+1) :
  mx_congr N C C' -> mx_congr N (Cpp_mx a0 C) (Cpp_mx a0 C').
Proof.
move=> CC i j; rewrite !Cpp_entry.
by case: (unlift ord0 i) => [i'|]; case: (unlift ord0 j) => [j'|];
  rewrite ?subrr ?dvdz0.
Qed.

Lemma prod_tail (a : 'I_n.+2 -> int) :
  \prod_(i < n.+2 | i != ord0) a i = \prod_(i < n.+1) a (lift ord0 i).
Proof.
rewrite big_mkcond [LHS]big_ord_recl eqxx /= mul1r.
exact: eq_bigr.
Qed.

Lemma det_diag_head (a : 'I_n.+2 -> int) :
  \det (diag_mx (\row_i a i))
  = a ord0 * \prod_(i < n.+2 | i != ord0) a i.
Proof.
rewrite det_diag big_ord_recl mxE prod_tail; congr (_ * _).
by apply: eq_bigr => i _; rewrite mxE.
Qed.

Lemma det_Cp (a : 'I_n.+2 -> int) :
  \det (Cp_mx a) = a ord0 * \prod_(i < n.+2 | i != ord0) a i.
Proof.
have -> : Cp_mx a = diag_mx (\row_i (if i == ord0 then a (lift ord0 ord0) * a ord0
                                    else a (lift ord0 i))).
  apply/matrixP => i j; rewrite /Cp_mx mx_setE !mxE eqxx mulr1n.
  case: (eqVneq i ord0) => [->|ni] /=; last by [].
  by case: (eqVneq j ord0) => [_|nj] /=; rewrite ?mulr1n ?mulr0n.
rewrite det_diag prod_tail [LHS]big_ord_recl [in RHS]big_ord_recl mxE eqxx.
rewrite mulrA [a ord0 * _]mulrC; congr (_ * _).
by apply: eq_bigr => i _; rewrite mxE lift_eqF.
Qed.

End Shapes.

Lemma int_unit (x : int) : x \is a GRing.unit -> x = 1 \/ x = -1.
Proof. by case/orP => /eqP ->; [left | right]. Qed.

Lemma det_sign_diag n : \det (sign_diag n) = -1.
Proof.
rewrite /sign_diag det_diag big_ord_recl mxE eqxx big1 ?mulr1 // => i _.
by rewrite mxE lift_eqF.
Qed.

Lemma det_normalise_l n (U : 'M[int]_n.+1) :
  U \in unitmx ->
  \det (if \det U == -1 then sign_diag n *m U else U) = 1.
Proof.
rewrite unitmxE => /int_unit [] dU; rewrite dU.
  by rewrite (_ : (1 == -1 :> int) = false).
by rewrite eqxx det_mulmx det_sign_diag dU mulrNN mulr1.
Qed.

Lemma det_normalise_r n (V : 'M[int]_n.+1) :
  V \in unitmx ->
  \det (if \det V == -1 then V *m sign_diag n else V) = 1.
Proof.
rewrite unitmxE => /int_unit [] dV; rewrite dV.
  by rewrite (_ : (1 == -1 :> int) = false).
by rewrite eqxx det_mulmx det_sign_diag dV mulrNN mulr1.
Qed.

Lemma is_diag_sign_l n (M : 'M[int]_n.+1) :
  is_diag_mx M -> is_diag_mx (sign_diag n *m M).
Proof.
by case/diag_mxP => d ->; rewrite /sign_diag mulmx_diag diag_mx_is_diag.
Qed.

Lemma is_diag_sign_r n (M : 'M[int]_n.+1) :
  is_diag_mx M -> is_diag_mx (M *m sign_diag n).
Proof.
by case/diag_mxP => d ->; rewrite /sign_diag mulmx_diag diag_mx_is_diag.
Qed.

Lemma is_diag_eq n (D : 'M[int]_n) :
  is_diag_mx D -> D = diag_mx (\row_i D i i).
Proof.
move/is_diag_mxP => dD; apply/matrixP => i j; rewrite !mxE.
by case: (eqVneq i j) => [->|/dD ->].
Qed.

End LiftFacts.

Module Diagonalise.
Import GRing.Theory GeneralLift.
Local Open Scope ring_scope.

Section Cross.

Variable n : nat.

Lemma cleared_mull (E A : 'M[int]_(1 + n)) :
  E \in unitmx -> cleared (E *m A) -> cleared A.
Proof.
move=> uE [U [V [uU uV [d [A' EA]]]]]; exists (U *m E), V; split=> //.
  by rewrite unitmx_mul uU.
by exists d, A'; rewrite -EA !mulmxA.
Qed.

Lemma cleared_tr (A : 'M[int]_(1 + n)) : cleared A^T -> cleared A.
Proof.
case=> U [V [uU uV [d [A' EA]]]]; exists V^T, U^T; split; rewrite ?unitmx_tr //.
exists d, A'^T.
have -> : V^T *m A *m U^T = (U *m A^T *m V)^T by rewrite !trmx_mul trmxK mulmxA.
by rewrite EA tr_block_mx tr_scalar_mx !trmx0.
Qed.


(** When the corner divides its whole row and column, one column of row
    operations and one row of column operations clear the cross. *)
Lemma cleared_div (A : 'M[int]_(1 + n)) :
  (forall i, (A ord0 ord0 %| A (rshift 1 i) ord0)%Z) ->
  (forall j, (A ord0 ord0 %| A ord0 (rshift 1 j))%Z) ->
  cleared A.
Proof.
set a := A ord0 ord0 => divc divr.
pose c' : 'cV[int]_n := \col_i (A (rshift 1 i) ord0 %/ a)%Z.
pose r' : 'rV[int]_n := \row_j (A ord0 (rshift 1 j) %/ a)%Z.
have Ea : ulsubmx A = a%:M.
  by apply/matrixP => i j; rewrite !ord1 !mxE eqxx mulr1n !lshift0.
have Ec : dlsubmx A = c' *m a%:M.
  by apply/matrixP => i j; rewrite !ord1 mul_mx_scalar !mxE lshift0 mulrC divzK.
have Er : ursubmx A = a%:M *m r'.
  by apply/matrixP => i j; rewrite !ord1 mul_scalar_mx !mxE lshift0 mulrC divzK.
exists (block_mx 1%:M 0 (- c') 1%:M), (block_mx 1%:M (- r') 0 1%:M); split.
- by rewrite unitmxE det_lblock !det1 mulr1 unitr1.
- by rewrite unitmxE det_ublock !det1 mulr1 unitr1.
exists a, (drsubmx A - c' *m ursubmx A).
rewrite -[in LHS](submxK A) Ea Ec {1}Er !mulmx_block.
rewrite !(mul1mx, mulmx1, mul0mx, mulmx0, addr0, add0r).
by rewrite Er mulmxN !mulNmx !addNr mul0mx add0r addrC.
Qed.


Lemma unit_transvection (i : 'I_(1 + n)) (q : int) :
  i != ord0 -> 1%:M - q *: delta_mx i ord0 \in unitmx.
Proof.
move=> ni.
suff /mulmx1_unit [] : (1%:M - q *: delta_mx i ord0)
                       *m (1%:M + q *: delta_mx i ord0) = 1%:M by [].
rewrite mulmxBl !mulmxDr !mul1mx mulmx1 -scalemxAl -scalemxAr.
by rewrite mul_delta_mx_0 1?eq_sym // !scaler0 addr0 addrK.
Qed.

Lemma delta_mul_entry (A : 'M[int]_(1 + n)) (k l i j : 'I_(1 + n)) :
  (delta_mx k l *m A) i j = (i == k)%:R * A l j.
Proof.
rewrite mxE (bigD1 l) //= big1 => [l' /negPf nl|].
  by rewrite mxE nl andbF mul0r.
by rewrite mxE eqxx andbT addr0.
Qed.

(** One Euclidean step on the first column: subtract a multiple of row 0
    from row [i], then swap the two rows; the corner becomes the
    remainder. *)
Lemma col_step (A : 'M[int]_(1 + n)) (i : 'I_n) :
  A ord0 ord0 != 0 -> ~~ (A ord0 ord0 %| A (rshift 1 i) ord0)%Z ->
  exists E, [/\ E \in unitmx, (E *m A) ord0 ord0 != 0
             & (`|(E *m A) ord0 ord0| < `|A ord0 ord0|)%N].
Proof.
set a := A ord0 ord0; set i' := rshift 1 i => nza ndiv.
have ni' : i' != ord0 by rewrite -val_eqE.
pose q := (A i' ord0 %/ a)%Z.
exists (tperm_mx ord0 i' *m (1%:M - q *: delta_mx i' ord0)).
have E00 : (tperm_mx ord0 i' *m (1%:M - q *: delta_mx i' ord0) *m A) ord0 ord0
           = (A i' ord0 %% a)%Z.
  rewrite -mulmxA -xrowE mxE tpermL mulmxBl mul1mx -scalemxAl.
  by rewrite mxE [X in _ + X]mxE [X in _ - X]mxE delta_mul_entry eqxx mul1r.
split.
- by rewrite unitmx_mul unitmx_perm unit_transvection.
- by rewrite E00; apply: contraNneq ndiv => /dvdz_mod0P.
- rewrite E00 -ltz_nat gez0_abs ?modz_ge0 //.
  by rewrite ltz_mod.
Qed.


Lemma cleared_nonzero (k : nat) (A : 'M[int]_(1 + n)) :
  A ord0 ord0 != 0 -> (`|A ord0 ord0| < k)%N -> cleared A.
Proof.
elim: k A => // k IH A nz; rewrite ltnS => le_k.
case: (boolP [forall i, (A ord0 ord0 %| A (rshift 1 i) ord0)%Z]) => [/forallP dc|].
  case: (boolP [forall j, (A ord0 ord0 %| A ord0 (rshift 1 j))%Z])
      => [/forallP dr|]; first exact: cleared_div.
  rewrite negb_forall => /existsP [j ndiv]; apply: cleared_tr.
  have [||E [uE nzE ltE]] := @col_step A^T j; rewrite ?mxE //.
  apply: (cleared_mull uE); apply: IH => //.
  by apply: leq_trans ltE _; rewrite mxE.
rewrite negb_forall => /existsP [i ndiv].
have [E [uE nzE ltE]] := col_step nz ndiv.
by apply: (cleared_mull uE); apply: IH => //; apply: leq_trans ltE _.
Qed.

Lemma cleared_any (A : 'M[int]_(1 + n)) : cleared A.
Proof.
case: (eqVneq (A ord0 ord0) 0) => [z|nz]; last first.
  exact: (@cleared_nonzero `|A ord0 ord0|.+1).
have swap (B : 'M[int]_(1 + n)) (i : 'I_n) :
    B (rshift 1 i) ord0 != 0 -> cleared B.
  move=> nzi; apply: (@cleared_mull (tperm_mx ord0 (rshift 1 i))).
    exact: unitmx_perm.
  apply: (@cleared_nonzero `|B (rshift 1 i) ord0|.+1);
    by rewrite -xrowE mxE tpermL.
case: (boolP [forall i, A (rshift 1 i) ord0 == 0]) => [/forallP zc|]; last first.
  by rewrite negb_forall => /existsP [i nzi]; apply: (swap A i).
case: (boolP [forall j, A ord0 (rshift 1 j) == 0]) => [/forallP zr|]; last first.
  rewrite negb_forall => /existsP [j nzj]; apply: cleared_tr.
  by apply: (swap A^T j); rewrite mxE.
by apply: cleared_div => i; rewrite z dvd0z.
Qed.

End Cross.

Lemma diagonalise n (A : 'M[int]_n) :
  exists U V, [/\ U \in unitmx, V \in unitmx & is_diag_mx (U *m A *m V)].
Proof.
elim: n A => [|n IH] A.
  exists 1%:M, 1%:M; split; rewrite ?unitmx1 //.
  by apply/is_diag_mxP => [[]].
have [U [V [uU uV [d [A' E]]]]] := cleared_any (A : 'M[int]_(1 + n)).
have [U' [V' [uU' uV' dA']]] := IH A'.
exists (block_mx 1%:M 0 0 U' *m U : 'M[int]_(1 + n)),
       (V *m block_mx 1%:M 0 0 V' : 'M[int]_(1 + n)); split.
- by rewrite unitmx_mul uU andbT unitmxE (@det_ublock _ 1 n) det1 mul1r -unitmxE.
- by rewrite unitmx_mul uV /= unitmxE (@det_ublock _ 1 n) det1 mul1r -unitmxE.
have -> : block_mx 1%:M 0 0 U' *m U *m A *m (V *m block_mx 1%:M 0 0 V')
          = block_mx 1%:M 0 0 U' *m (U *m A *m V) *m block_mx 1%:M 0 0 V'.
  by rewrite !mulmxA.
rewrite E !mulmx_block !(mul1mx, mulmx1, mul0mx, mulmx0, addr0, add0r).
by rewrite (@is_diag_block_mx _ 1 n 1 n) // !eqxx scalar_mx_is_diag.
Qed.

End Diagonalise.

Module LiftCorrect.
Import GRing.Theory GeneralLift MatrixFacts LiftFacts.
Local Open Scope ring_scope.

Section Correct.

Variable smith_form : smith_type.
Hypothesis smith_ok : smith_spec smith_form.

Lemma lift_body_correct n rec (A : 'M[int]_n.+2) N :
  (forall B, (N %| \det B - 1)%Z -> lifts N B (rec B N)) ->
  (N %| \det A - 1)%Z -> lifts N A (lift_body smith_form rec A N).
Proof.
move=> IH dA; rewrite /lift_body.
move: (smith_ok A); case: (smith_form A) => [[D0 U] V] [uU uV ED0 dD0].
set U' := if _ then _ else U; set V' := if _ then _ else V.
have dU' : \det U' = 1 by apply: det_normalise_l.
have dV' : \det V' = 1 by apply: det_normalise_r.
have uU' : U' \in unitmx by rewrite unitmxE dU' unitr1.
have uV' : V' \in unitmx by rewrite unitmxE dV' unitr1.
set D := U' *m A *m V'.
have diagD : is_diag_mx D.
  move: dD0; rewrite ED0 /D /U' /V' => dUAV.
  case: (\det U == -1); case: (\det V == -1) => //.
  - have -> : sign_diag n.+1 *m U *m A *m (V *m sign_diag n.+1)
              = sign_diag n.+1 *m (U *m A *m V) *m sign_diag n.+1.
      by rewrite !mulmxA.
    exact/is_diag_sign_r/is_diag_sign_l.
  - have -> : sign_diag n.+1 *m U *m A *m V
              = sign_diag n.+1 *m (U *m A *m V) by rewrite !mulmxA.
    exact: is_diag_sign_l.
  - have -> : U *m A *m (V *m sign_diag n.+1)
              = U *m A *m V *m sign_diag n.+1 by rewrite !mulmxA.
    exact: is_diag_sign_r.
set a := fun i => D i i.
set b := \prod_(i < n.+2 | i != ord0) a i.
have ED : D = diag_mx (\row_i a i) by apply: is_diag_eq.
have detD : \det D = \det A by rewrite /D !det_mulmx dU' dV' mul1r mulr1.
have Hb : (N %| a ord0 * b - 1)%Z by rewrite -det_diag_head -ED detD.
have [C [EC dC CC]] : lifts N (Cp_mx a) (rec (Cp_mx a) N).
  by apply: IH; rewrite det_Cp.
rewrite [rec _ _]EC /=.
exists (invmx U' *m invmx (W_mx n b) *m Cpp_mx (a ord0) C
        *m invmx (X_mx n (- a ord_1)) *m invmx V'); split=> //.
  by rewrite !det_mulmx !det_inv dU' dV' det_W det_X det_Cpp dC invr1 !mulr1.
have uW : W_mx n b \in unitmx by rewrite unitmxE det_W unitr1.
have uX : X_mx n (- a ord_1) \in unitmx by rewrite unitmxE det_X unitr1.
have {1}-> : A = invmx U' *m invmx (W_mx n b)
               *m (W_mx n b *m D *m X_mx n (- a ord_1))
               *m invmx (X_mx n (- a ord_1)) *m invmx V'.
  by rewrite -!mulmxA (mulKmx uW) (mulKVmx uX) (mulmxV uV') mulmx1 (mulKmx uU').
do 2!apply: mx_congr_mulr; apply: mx_congr_mull.
apply: (mx_congr_trans (Cpp_congr _ CC)).
by apply: mx_congr_sym; rewrite ED; apply: WDX_congr.
Qed.

Lemma lift_for_SL_correct n (A : 'M[int]_n.+1) N :
  (N %| \det A - 1)%Z -> lifts N A (lift_for_SL smith_form A N).
Proof.
elim: n A => [|n IH] A dA /=; last exact: lift_body_correct.
exists 1%:M; split=> //; first exact: det1.
by move=> i j; rewrite !ord1 mxE eqxx -det_mx11 -opprB rpredN.
Qed.

End Correct.

End LiftCorrect.

Module ReferenceSmith.
Import GRing.Theory GeneralLift LiftCorrect Diagonalise.
Local Open Scope ring_scope.

Lemma diagonalises_exists n (A : 'M[int]_n) : exists UV, diagonalises A UV.
Proof.
have [U [V [uU uV dA]]] := diagonalise A.
by exists (U, V); apply/and3P.
Qed.

(** A reference instance of the contract of [smith_form]: some pair of
    invertible [U], [V] with [U * A * V] diagonal, which [diagonalise]
    shows to exist for every integer matrix. *)
Definition euclid_smith_form : smith_type :=
  fun n A =>
    let UV := xchoose (diagonalises_exists A) in
    (UV.1 *m A *m UV.2, UV.1, UV.2).

Lemma euclid_smith_ok : smith_spec euclid_smith_form.
Proof.
move=> n A; rewrite /euclid_smith_form.
by case/and3P: (xchooseP (diagonalises_exists A)).
Qed.

End ReferenceSmith.

Module ClaimsGeneral.
Import GRing.Theory GeneralLift MatrixFacts LiftFacts LiftCorrect ReferenceSmith.
Local Open Scope ring_scope.

Section Depth.

Variable smith_form : smith_type.

Lemma lift_body_ext n (rec1 rec2 : 'M[int]_n.+1 -> int -> result 'M[int]_n.+1)
    (A : 'M[int]_n.+2) N :
  (forall B, rec1 B N = rec2 B N) ->
  lift_body smith_form rec1 A N = lift_body smith_form rec2 A N.
Proof.
by move=> E; rewrite /lift_body; case: (smith_form A) => [[D U] V]; rewrite E.
Qed.

Lemma lift_body_raise n (rec : 'M[int]_n.+1 -> int -> result 'M[int]_n.+1)
    (A : 'M[int]_n.+2) N e :
  (forall B, rec B N = Raise e) -> lift_body smith_form rec A N = Raise e.
Proof.
by move=> E; rewrite /lift_body; case: (smith_form A) => [[D U] V]; rewrite E.
Qed.

Lemma lift_body_returns n (rec : 'M[int]_n.+1 -> int -> result 'M[int]_n.+1)
    (A : 'M[int]_n.+2) N :
  (forall B, returns (rec B N)) -> returns (lift_body smith_form rec A N).
Proof.
move=> E; rewrite /lift_body; case: (smith_form A) => [[D U] V].
by set B := (X in rec X N); case: (rec B N) (E B).
Qed.

End Depth.

(** C2. General lift contract: whenever [smith_form] meets its contract,
    for every integer matrix [A] of dimension [n + 1 >= 1] whose determinant
    is 1 modulo [N], [lift_for_SL A N] returns a matrix [L] of the same
    dimension with determinant exactly 1 and [L = A] entrywise modulo [N];
    on a 1-by-1 matrix it returns the 1-by-1 identity. *)
Theorem lift_for_SL_contract (smith_form : smith_type) (n : nat)
    (A : 'M[int]_n.+1) (N : int) :
  smith_spec smith_form -> (\det A = 1 %[mod N])%Z ->
  exists L : 'M[int]_n.+1,
    [/\ lift_for_SL smith_form A N = Ok L,
        \det L = 1,
        forall i j, (L i j = A i j %[mod N])%Z
      & forall B : 'M[int]_1, lift_for_SL smith_form B N = Ok 1%:M].
Proof.
move=> ok /eqP; rewrite eqz_mod_dvd => dA.
have [L [EL dL LA]] := lift_for_SL_correct ok dA.
exists L; split=> // i j.
by apply/eqP; rewrite eqz_mod_dvd; apply: LA.
Qed.

Lemma lift_for_SL_contract_witness :
  exists L : 'M[int]_2,
    [/\ lift_for_SL euclid_smith_form witness_matrix 11 = Ok L,
        \det L = 1,
        forall i j, (L i j = witness_matrix i j %[mod 11])%Z
      & forall B : 'M[int]_1, lift_for_SL euclid_smith_form B 11 = Ok 1%:M].
Proof.
apply: (@lift_for_SL_contract euclid_smith_form 1 witness_matrix 11).
  exact: euclid_smith_ok.
by rewrite /witness_matrix det_diag !big_ord_recl big_ord0 !mxE.
Defined.

(** C9. Termination: [lift_for_SL] ends on every square integer matrix (it
    returns when the matrix has a row, and raises at once when it has
    none); each recursive call is on a matrix of dimension one less, down
    to dimension 1, and a run on a matrix of dimension [n + 1] needs
    exactly [n + 1] nested calls: with room for [frames] calls it completes
    if and only if [n < frames]. *)
Theorem lift_for_SL_recursion_depth (smith_form : smith_type) (n : nat)
    (A : 'M[int]_n.+1) (N : int) :
  [/\ returns (lift_for_SL smith_form A N),
      forall (m : nat) (B : 'M[int]_m),
        lift_for_SL_any smith_form B N <> Diverges
    & forall frames : nat,
        lift_for_SL_limited smith_form frames A N
        = if (n < frames)%N then lift_for_SL smith_form A N
          else Raise (RuntimeError "maximum recursion depth exceeded")].
Proof.
have ret k (B : 'M[int]_k.+1) : returns (lift_for_SL smith_form B N).
  by elim: k B => [|k IH] B //=; apply: lift_body_returns.
split; first exact: ret.
  by case=> [|m] B //=; move: (ret m B); case: (lift_for_SL _ _ _).
move=> frames; elim: frames n A => [|k IH] n A //.
case: n A => [|n] A //=.
rewrite ltnS; case: (ltnP n k) => [lt_nk|le_kn].
  by apply: lift_body_ext => B; rewrite IH lt_nk.
by apply: lift_body_raise => B; rewrite IH ltnNge le_kn.
Qed.

End ClaimsGeneral.

(** ** Further properties of the general lift *)

Module FurtherGeneral.
Import GRing.Theory GeneralLift MatrixFacts LiftFacts LiftCorrect ReferenceSmith.
Local Open Scope ring_scope.

Lemma lift_body_modulus (sf : smith_type) n
    (rec : 'M[int]_n.+1 -> int -> result 'M[int]_n.+1) (A : 'M[int]_n.+2) N N' :
  (forall B, rec B N = rec B N') ->
  lift_body sf rec A N = lift_body sf rec A N'.
Proof.
by move=> E; rewrite /lift_body; case: (sf _ A) => [[D U] V]; rewrite E.
Qed.

Lemma lift_for_SL_modulus (sf : smith_type) n (A : 'M[int]_n.+1) (N N' : int) :
  lift_for_SL sf A N = lift_for_SL sf A N'.
Proof.
elim: n A => [|n IH] A //=.
by apply: lift_body_modulus => B; apply: IH.
Qed.

Lemma lift_for_SL_det (sf : smith_type) n (A : 'M[int]_n.+1) (N : int) :
  smith_spec sf -> lifts (\det A - 1) A (lift_for_SL sf A N).
Proof.
move=> ok; rewrite (lift_for_SL_modulus sf A N (\det A - 1)).
exact: lift_for_SL_correct.
Qed.

Lemma lift_for_SL_fixed (sf : smith_type) n (A : 'M[int]_n.+1) (N : int) :
  smith_spec sf -> \det A = 1 -> lift_for_SL sf A N = Ok A.
Proof.
move=> ok dA; have [L [-> _ LA]] := lift_for_SL_det A N ok.
congr Ok; apply/matrixP => i j.
by move: (LA i j); rewrite dA subrr dvd0z subr_eq0 => /eqP.
Qed.

(** X11.  [lift_for_SL] never uses its modulus: [N] is only handed to the
    recursive call, and the result is the same for every modulus. *)
Theorem lift_for_SL_ignores_modulus (smith_form : smith_type) (n : nat)
    (A : 'M[int]_n.+1) (N N' : int) :
  lift_for_SL smith_form A N = lift_for_SL smith_form A N'.
Proof. exact: lift_for_SL_modulus. Qed.

(** X12.  The general lift without its precondition: whenever
    [smith_form] meets its contract, for every integer matrix [A] with at
    least one row and every [N], [lift_for_SL A N] returns a matrix [L]
    of determinant exactly 1 that is [A] entrywise modulo [det A - 1],
    hence modulo every divisor of [det A - 1]. *)
Theorem lift_for_SL_modulo_det (smith_form : smith_type) (n : nat)
    (A : 'M[int]_n.+1) (N : int) :
  smith_spec smith_form ->
  exists L : 'M[int]_n.+1,
    [/\ lift_for_SL smith_form A N = Ok L,
        \det L = 1
      & forall i j, (L i j = A i j %[mod \det A - 1])%Z].
Proof.
move=> ok; have [L [EL dL LA]] := lift_for_SL_det A N ok.
exists L; split=> // i j.
by apply/eqP; rewrite eqz_mod_dvd; apply: LA.
Qed.

Lemma lift_for_SL_modulo_det_witness :
  exists L : 'M[int]_2,
    [/\ lift_for_SL euclid_smith_form witness_matrix 5 = Ok L,
        \det L = 1
      & forall i j, (L i j = witness_matrix i j %[mod \det witness_matrix - 1])%Z].
Proof.
apply: (@lift_for_SL_modulo_det euclid_smith_form 1 witness_matrix 5).
exact: euclid_smith_ok.
Defined.

(** X13.  Lifting is the identity on [SL_n(Z)], and so idempotent:
    whenever [smith_form] meets its contract, a matrix of determinant
    exactly 1 is returned unchanged, and the lift of any matrix is
    returned unchanged when it is lifted again. *)
Theorem lift_for_SL_idempotent (smith_form : smith_type) (n : nat)
    (A : 'M[int]_n.+1) (N : int) :
  smith_spec smith_form ->
  (\det A = 1 -> lift_for_SL smith_form A N = Ok A)
  /\ exists L : 'M[int]_n.+1,
       lift_for_SL smith_form A N = Ok L /\ lift_for_SL smith_form L N = Ok L.
Proof.
move=> ok; split; first exact: lift_for_SL_fixed.
have [L [EL dL _]] := lift_for_SL_det A N ok.
by exists L; split=> //; apply: lift_for_SL_fixed.
Qed.

Lemma lift_for_SL_idempotent_witness :
  (\det witness_matrix = 1 ->
   lift_for_SL euclid_smith_form witness_matrix 11 = Ok witness_matrix)
  /\ exists L : 'M[int]_2,
       lift_for_SL euclid_smith_form witness_matrix 11 = Ok L
       /\ lift_for_SL euclid_smith_form L 11 = Ok L.
Proof.
apply: (@lift_for_SL_idempotent euclid_smith_form 1 witness_matrix 11).
exact: euclid_smith_ok.
Defined.

End FurtherGeneral.
